(** * Symbolic expressions, the post-order visitor and differentiation

    A shallow embedding of [expressions/expressions.py].

    Python objects have identity: the visitor's cache is a [dict] keyed by
    the node objects themselves, and [Expression] defines neither [__eq__]
    nor [__hash__], so two nodes are the same key exactly when they are the
    same object.  The embedding therefore keeps every [Expression] instance
    in an arena ([heap]); a reference to a node is its index in the arena,
    and constructing a node appends to it.  Nodes are never mutated.

    Python floats are IEEE binary64 numbers, here the primitive floats.  A
    loop or a recursion of the program takes fuel; each result about a run
    says how much fuel is enough.  The interpreter's limit on the depth of
    recursion (which [__str__] would meet on a very deep expression) is not
    part of the model. *)

From Stdlib Require Import ZArith String Floats.PrimFloat DecimalString Lia.
From stdpp Require Import base option list gmap strings.

(** ** Python values *)

(** The builtin values the program is handed: [int], [float], [bool], [str]
    and [None].  ([complex], [Fraction] and [Decimal] are further instances of
    [numbers.Number]; they are left out of the model.) *)
Inductive pyval : Type :=
| VInt (z : Z)
| VFloat (f : float)
| VBool (b : bool)
| VStr (s : string)
| VNone.

(** A reference to an [Expression] instance. *)
Abbreviation addr := nat.

(** An argument as the methods receive it: an [Expression] instance or a
    builtin value. *)
Inductive pyobj : Type :=
| Ref (a : addr)
| Val (v : pyval).

(** [isinstance(v, numbers.Number)]; [bool] is a subclass of [int]. *)
Definition is_number (v : pyval) : bool :=
  match v with
  | VInt _ | VFloat _ | VBool _ => true
  | VStr _ | VNone => false
  end.

(** [isinstance(v, str)] *)
Definition is_str (v : pyval) : bool :=
  match v with
  | VStr _ => true
  | _ => false
  end.

(** ** The classes *)

Inductive tcls : Type := Number | Symbol.
Inductive ocls : Type := Add | Sub | Mul | Div | Pow.

(** An instance: a [Terminal] holds [value] and has no operands
    ([Terminal.__init__] calls [super().__init__()]); an [Operator] holds the
    tuple [operands]. *)
Inductive expression : Type :=
| Terminal (c : tcls) (value : pyval)
| Operator (c : ocls) (operands : list addr).

Definition operands (e : expression) : list addr :=
  match e with
  | Terminal _ _ => []
  | Operator _ ops => ops
  end.

(** The class attribute [precedence]. *)
Definition oprecedence (c : ocls) : nat :=
  match c with
  | Add | Sub => 0
  | Mul | Div => 1
  | Pow => 2
  end.

Definition precedence (e : expression) : nat :=
  match e with
  | Terminal _ _ => 3
  | Operator c _ => oprecedence c
  end.

(** The class attribute [symbol]. *)
Definition symbol (c : ocls) : string :=
  match c with
  | Add => "+"
  | Sub => "-"
  | Mul => "*"
  | Div => "/"
  | Pow => "^"
  end.

(** [type(expr).__name__] *)
Definition ocls_name (c : ocls) : string :=
  match c with
  | Add => "Add"
  | Sub => "Sub"
  | Mul => "Mul"
  | Div => "Div"
  | Pow => "Pow"
  end.

(** ** Exceptions and the allocation monad *)

Inductive exn : Type :=
| TypeError (msg : string)
| UnsupportedOperand
    (* the TypeError the interpreter raises once both [__op__] and
       [__rop__] have returned [NotImplemented] *)
| NotImplementedError (msg : string)
| IndexError
| KeyError
| InvalidReference
    (* an index outside the arena; Python has no such reference *).

Inductive outcome (A : Type) : Type :=
| Ok (a : A)
| Raise (e : exn)
| OutOfFuel.
Arguments Ok {A} a.
Arguments Raise {A} e.
Arguments OutOfFuel {A}.

Abbreviation heap := (list expression).

Definition M (A : Type) : Type := heap -> outcome (A * heap).

Definition ret {A} (a : A) : M A := fun h => Ok (a, h).

Definition bind {A B} (m : M A) (k : A -> M B) : M B :=
  fun h =>
    match m h with
    | Ok (a, h') => k a h'
    | Raise e => Raise e
    | OutOfFuel => OutOfFuel
    end.

Definition raise {A} (e : exn) : M A := fun _ => Raise e.

Notation "x <- c1 ;; c2" := (bind c1 (fun x => c2))
  (at level 100, c1 at next level, right associativity).

(** Object creation: the new instance gets the next free index. *)
Definition new (e : expression) : M addr :=
  fun h => Ok (length h, h ++ [e]).

(** Attribute access through a reference. *)
Definition deref (a : addr) : M expression :=
  fun h =>
    match h !! a with
    | Some e => Ok (e, h)
    | None => Raise InvalidReference
    end.

(** [l[i]] on a tuple *)
Definition index {A} (l : list A) (i : nat) : M A :=
  match l !! i with
  | Some x => ret x
  | None => raise IndexError
  end.

(** ** Constructors *)

(** [Number(value)] *)
Definition Number_init (value : pyobj) : M addr :=
  match value with
  | Val v =>
      if is_number v then new (Terminal Number v)
      else raise (TypeError "Value passed to Number should be a number.")
  | Ref _ => raise (TypeError "Value passed to Number should be a number.")
  end.

(** [Symbol(value)] *)
Definition Symbol_init (value : pyobj) : M addr :=
  match value with
  | Val v =>
      if is_str v then new (Terminal Symbol v)
      else raise (TypeError "Value passed to Symbol should be a string.")
  | Ref _ => raise (TypeError "Value passed to Symbol should be a string.")
  end.

(** ** The arithmetic methods of [Expression]

    The ten methods differ only in the class they build and in the side
    [self] goes to.  [None] stands for [NotImplemented]. *)

Definition binary (c : ocls) (self : addr) (other : pyobj) : M (option addr) :=
  match other with
  | Ref o =>
      r <- new (Operator c [self; o]) ;; ret (Some r)
  | Val v =>
      if is_number v then
        n <- Number_init (Val v) ;;
        r <- new (Operator c [self; n]) ;; ret (Some r)
      else ret None
  end.

Definition reflected (c : ocls) (self : addr) (other : pyobj) : M (option addr) :=
  match other with
  | Ref o =>
      r <- new (Operator c [o; self]) ;; ret (Some r)
  | Val v =>
      if is_number v then
        n <- Number_init (Val v) ;;
        r <- new (Operator c [n; self]) ;; ret (Some r)
      else ret None
  end.

Definition __add__ := binary Add.
Definition __radd__ := reflected Add.
Definition __sub__ := binary Sub.
Definition __rsub__ := reflected Sub.
Definition __mul__ := binary Mul.
Definition __rmul__ := reflected Mul.
Definition __truediv__ := binary Div.
Definition __rtruediv__ := reflected Div.
Definition __pow__ := binary Pow.
Definition __rpow__ := reflected Pow.

Definition method (c : ocls) : addr -> pyobj -> M (option addr) :=
  match c with
  | Add => __add__
  | Sub => __sub__
  | Mul => __mul__
  | Div => __truediv__
  | Pow => __pow__
  end.

Definition rmethod (c : ocls) : addr -> pyobj -> M (option addr) :=
  match c with
  | Add => __radd__
  | Sub => __rsub__
  | Mul => __rmul__
  | Div => __rtruediv__
  | Pow => __rpow__
  end.

(** The interpreter's evaluation of [l <op> r] when [l] is an [Expression]:
    [l.__op__(r)]; on [NotImplemented] the right operand is neither an
    [Expression] nor a number, has no reflected method that accepts [l], and
    the interpreter raises TypeError. *)
Definition binop_l (c : ocls) (l : addr) (r : pyobj) : M addr :=
  x <- method c l r ;;
  match x with
  | Some a => ret a
  | None => raise UnsupportedOperand
  end.

(** [l <op> r] when [l] is a builtin value and [r] an [Expression]: the
    builtin's own method does not know [r], so [r.__rop__(l)] decides. *)
Definition binop_r (c : ocls) (l : pyval) (r : addr) : M addr :=
  x <- rmethod c r (Val l) ;;
  match x with
  | Some a => ret a
  | None => raise UnsupportedOperand
  end.

(** ** Rendering: [__str__] *)

Section Rendering.

(** [str] of a Python float (the shortest decimal that reads back as the
    same float) belongs to the interpreter, not to this program; the
    rendering is parametric in it. *)
Variable float_str : float -> string.

(** [str(value)] of a builtin value *)
Definition py_str (v : pyval) : string :=
  match v with
  | VInt z => NilZero.string_of_int (Z.to_int z)
  | VFloat f => float_str f
  | VBool true => "True"
  | VBool false => "False"
  | VStr s => s
  | VNone => "None"
  end.

(** The local function [parentheses] of [Operator.__str__], applied to an
    operand whose own rendering is [s]. *)
Definition parentheses (self_precedence : nat) (operand : expression)
    (s : string) : string :=
  if precedence operand <? self_precedence
  then "(" +:+ s +:+ ")"
  else s.

(** [str(expr)]: [Terminal.__str__] and [Operator.__str__].  The methods
    call each other recursively along the operands; [fuel] bounds the depth
    of the recursion. *)
Fixpoint str (fuel : nat) (h : heap) (expr : addr) : option string :=
  match fuel with
  | O => None
  | S fuel' =>
      match h !! expr with
      | None => None
      | Some (Terminal _ value) => Some (py_str value)
      | Some (Operator c ops) =>
          parts ← mapM (fun o =>
                          operand ← h !! o;
                          s ← str fuel' h o;
                          Some (parentheses (oprecedence c) operand s)) ops;
          Some (String.concat (" " +:+ symbol c +:+ " ") parts)
      end
  end.

(** An operand lies strictly below its parent in the arena, so [S expr]
    levels of recursion reach every node under [expr]. *)
Definition render (h : heap) (expr : addr) : option string :=
  str (S expr) h expr.

End Rendering.

(** ** The diagnostic form: [__repr__] *)

Section Repr.

(** [repr] of a float and of a string (quotes and escapes) belong to the
    interpreter; the diagnostic form is parametric in them. *)
Variable float_repr : float -> string.
Variable str_repr : string -> string.

(** [repr(value)] of a builtin value *)
Definition py_repr (v : pyval) : string :=
  match v with
  | VInt z => NilZero.string_of_int (Z.to_int z)
  | VFloat f => float_repr f
  | VBool true => "True"
  | VBool false => "False"
  | VStr s => str_repr s
  | VNone => "None"
  end.

(** [repr] of a tuple, from the [repr]s of its items: a tuple of one item
    is written with a trailing comma. *)
Definition tuple_repr (items : list string) : string :=
  match items with
  | [item] => "(" +:+ item +:+ ",)"
  | _ => "(" +:+ String.concat ", " items +:+ ")"
  end.

(** [repr(expr)]: [Terminal.__repr__] and [Operator.__repr__]; the [repr] of
    the tuple [operands] calls [repr] on each operand. *)
Fixpoint repr (fuel : nat) (h : heap) (expr : addr) : option string :=
  match fuel with
  | O => None
  | S fuel' =>
      match h !! expr with
      | None => None
      | Some (Terminal _ value) => Some (py_repr value)
      | Some (Operator c ops) =>
          items ← mapM (repr fuel' h) ops;
          Some (ocls_name c +:+ tuple_repr items)
      end
  end.

(** As for [render], [S expr] levels of recursion are enough. *)
Definition debug_form (h : heap) (expr : addr) : option string :=
  repr (S expr) h expr.

End Repr.

(** ** The visitor *)

Section Postvisitor.

(** [W] is everything [fn] may read or change: the arena and whatever
    state of its own [fn] keeps.  [R] is the type of [fn]'s results.  The
    keyword arguments the visitor hands through are fixed in [fn]. *)
Context {W R : Type}.
Variable heap_of : W -> heap.
Variable fn : addr -> list R -> W -> outcome (R * W).

(** What one iteration did with [fn]: the node, the state [fn] was called
    in, the arguments, and the result unless [fn] raised.  The record is an
    observation of the run; nothing in the loop reads it. *)
Record call : Type := Call {
  call_node : addr;
  call_world : W;
  call_args : list R;
  call_result : option R
}.

(** The body of the [while] loop for the popped node [e]; [stack] is what
    remains after the pop, its head being the top.  Besides the next
    state it reports the call of [fn], if it made one. *)
Definition visit (e : addr) (stack : list addr) (visited : gmap nat R)
    (w : W) : option call * outcome (list addr * gmap nat R * W) :=
  match heap_of w !! e with
  | None => (None, Raise InvalidReference)
  | Some node =>
      let unvisited_children :=
        filter (fun o => visited !! o = None) (operands node) in
      match unvisited_children with
      | _ :: _ =>
          (None, Ok (reverse unvisited_children ++ e :: stack, visited, w))
      | [] =>
          match mapM (fun o => visited !! o) (operands node) with
          | None => (None, Raise KeyError)
          | Some args =>
              match fn e args w with
              | Ok (r, w') =>
                  (Some (Call e w args (Some r)),
                   Ok (stack, <[e := r]> visited, w'))
              | Raise x => (Some (Call e w args None), Raise x)
              | OutOfFuel => (Some (Call e w args None), OutOfFuel)
              end
          end
      end
  end.

(** [while stack: ...]; [fuel] bounds the number of iterations. *)
Fixpoint while_stack (fuel : nat) (stack : list addr)
    (visited : gmap nat R) (w : W) : outcome (gmap nat R * W) :=
  match stack with
  | [] => Ok (visited, w)
  | e :: stack' =>
      match fuel with
      | O => OutOfFuel
      | S fuel' =>
          match snd (visit e stack' visited w) with
          | Ok (stack'', visited', w') =>
              while_stack fuel' stack'' visited' w'
          | Raise x => Raise x
          | OutOfFuel => OutOfFuel
          end
      end
  end.

(** The calls of [fn] the loop makes, in the order it makes them. *)
Fixpoint calls (fuel : nat) (stack : list addr)
    (visited : gmap nat R) (w : W) : list call :=
  match stack with
  | [] => []
  | e :: stack' =>
      match fuel with
      | O => []
      | S fuel' =>
          let (c, next) := visit e stack' visited w in
          option_list c ++
          match next with
          | Ok (stack'', visited', w') => calls fuel' stack'' visited' w'
          | _ => []
          end
      end
  end.

Definition postvisitor (fuel : nat) (expr : addr) (w : W) : outcome (R * W) :=
  match while_stack fuel [expr] ∅ w with
  | Ok (visited, w') =>
      match visited !! expr with
      | Some r => Ok (r, w')
      | None => Raise KeyError
      end
  | Raise x => Raise x
  | OutOfFuel => OutOfFuel
  end.

Definition postvisitor_calls (fuel : nat) (expr : addr) (w : W) : list call :=
  calls fuel [expr] ∅ w.

End Postvisitor.

Arguments Call {W R} _ _ _ _.
Arguments call_node {W R} _.
Arguments call_world {W R} _.
Arguments call_args {W R} _.
Arguments call_result {W R} _.

(** ** Differentiation *)

(** What a rule returns and what it receives in [*o]: a Python float or an
    [Expression]. *)
Inductive dval : Type :=
| DFloat (f : float)
| DExpr (a : addr).

Definition to_obj (d : dval) : pyobj :=
  match d with
  | DFloat f => Val (VFloat f)
  | DExpr a => Ref a
  end.

(** [l + r] between two results: IEEE addition on two floats, and the
    methods of [Expression] as soon as one side is an [Expression]. *)
Definition dadd (l r : dval) : M dval :=
  match l, r with
  | DFloat x, DFloat y => ret (DFloat (x + y))
  | DFloat x, DExpr b => a <- binop_r Add (VFloat x) b ;; ret (DExpr a)
  | DExpr a, _ => a' <- binop_l Add a (to_obj r) ;; ret (DExpr a')
  end.

(** [l <op> r] for a result [l] and an [Expression] [r]. *)
Definition dbinop_r (c : ocls) (l : dval) (r : addr) : M addr :=
  match l with
  | DFloat x => binop_r c (VFloat x) r
  | DExpr a => binop_l c a (Ref r)
  end.

(** [l <op> r] for an [Expression] [l] and a result [r]. *)
Definition dbinop_l (c : ocls) (l : addr) (r : dval) : M addr :=
  binop_l c l (to_obj r).

(** [expr.value == var] *)
Definition value_eq (value : pyval) (var : string) : bool :=
  match value with
  | VStr s => String.eqb s var
  | _ => false
  end.

(** [differentiate(expr, *o, var=var)]: [singledispatch] selects the rule
    by the class of [expr]. *)
Definition differentiate (var : string) (expr : addr) (o : list dval)
    : M dval :=
  e <- deref expr ;;
  match e with
  | Terminal Number _ => ret (DFloat 0)
  | Terminal Symbol value =>
      ret (if value_eq value var then DFloat 1 else DFloat 0)
  | Operator Add _ =>
      o0 <- index o 0 ;;
      o1 <- index o 1 ;;
      dadd o0 o1
  | Operator Mul ops =>
      o0 <- index o 0 ;;
      b <- index ops 1 ;;
      t1 <- dbinop_r Mul o0 b ;;
      o1 <- index o 1 ;;
      a <- index ops 0 ;;
      t2 <- dbinop_r Mul o1 a ;;
      r <- binop_l Add t1 (Ref t2) ;;
      ret (DExpr r)
  | Operator Div ops =>
      o0 <- index o 0 ;;
      b <- index ops 1 ;;
      t1 <- dbinop_r Mul o0 b ;;
      a <- index ops 0 ;;
      o1 <- index o 1 ;;
      t2 <- dbinop_l Mul a o1 ;;
      n <- binop_l Sub t1 (Ref t2) ;;
      b' <- index ops 1 ;;
      p <- binop_l Pow b' (Val (VInt 2)) ;;
      r <- binop_l Div n (Ref p) ;;
      ret (DExpr r)
  | Operator Pow ops =>
      o0 <- index o 0 ;;
      b <- index ops 1 ;;
      t <- dbinop_r Mul o0 b ;;
      a <- index ops 0 ;;
      b' <- index ops 1 ;;
      s <- binop_l Sub b' (Val (VInt 1)) ;;
      q <- binop_l Pow a (Ref s) ;;
      r <- binop_l Mul t (Ref q) ;;
      ret (DExpr r)
  | Operator Sub _ =>
      raise (NotImplementedError ("Cannot differentiate " +:+ ocls_name Sub))
  end.

(** ** Differentiation through the visitor *)

(** [postvisitor(expr, differentiate, var=var)] *)
Definition derivative (fuel : nat) (expr : addr) (var : string) : M dval :=
  postvisitor (fun h : heap => h) (differentiate var) fuel expr.

(** * The vocabulary of the properties *)

(** ** Arguments and arenas *)

(** [isinstance(value, numbers.Number)] and [isinstance(value, str)] on an
    arbitrary argument: an [Expression] instance is neither. *)
Definition isinstance_number (x : pyobj) : bool :=
  match x with
  | Val v => is_number v
  | Ref _ => false
  end.

Definition isinstance_str (x : pyobj) : bool :=
  match x with
  | Val v => is_str v
  | Ref _ => false
  end.

(** The nodes the constructors and the arithmetic methods build: an
    operator has exactly two operands, and every operand was constructed
    before its parent, so it lies strictly below it.  The structure is
    acyclic and may share nodes. *)
Definition wf_node (i : addr) (e : expression) : Prop :=
  Forall (fun o => o < i) (operands e) /\
  match e with
  | Terminal _ _ => True
  | Operator _ ops => length ops = 2
  end.

Definition wf_heap (h : heap) : Prop :=
  forall i e, h !! i = Some e -> wf_node i e.

(** A checker for [wf_heap], for concrete arenas. *)
Definition wf_nodeb (i : addr) (e : expression) : bool :=
  forallb (fun o => o <? i) (operands e) &&
  match e with
  | Terminal _ _ => true
  | Operator _ ops => length ops =? 2
  end.

Fixpoint wf_from (i : addr) (h : heap) : bool :=
  match h with
  | [] => true
  | e :: h' => wf_nodeb i e && wf_from (S i) h'
  end.

(** A result is usable in [h] when it is a float or a node of [h]. *)
Definition dvalid (h : heap) (d : dval) : Prop :=
  match d with
  | DFloat _ => True
  | DExpr a => a < length h
  end.

(** [x] stands for the operand [d] in a node built on top of [h]: [d]
    itself when it is an [Expression], and otherwise a [Number] created
    for the float. *)
Definition lifted (h h' : heap) (d : dval) (x : addr) : Prop :=
  match d with
  | DExpr a => x = a
  | DFloat f => length h <= x /\ h' !! x = Some (Terminal Number (VFloat f))
  end.

(** ** What an expression contains *)

(** [reach h a b]: [b] is [a] or lies under it. *)
Inductive reach (h : heap) : addr -> addr -> Prop :=
| reach_refl a : reach h a a
| reach_step a e o b :
    h !! a = Some e -> o ∈ operands e -> reach h o b -> reach h a b.

(** The expression at [a] contains a node of class [c]. *)
Definition contains (h : heap) (a : addr) (c : ocls) : Prop :=
  exists s ops, reach h a s /\ h !! s = Some (Operator c ops).

(** Every operator in or under [e] is an [Add]. *)
Definition sum_only (h : heap) (e : addr) : Prop :=
  forall c, c <> Add -> ~ contains h e c.

(** The result is a plain float. *)
Definition is_float (d : dval) : Prop := exists f, d = DFloat f.

(** The expression at [e] contains a [Div] or a [Pow]. *)
Definition has_quotient_or_power (h : heap) (e : addr) : Prop :=
  contains h e Div \/ contains h e Pow.

(** The exception of the default rule, raised for the one class that has
    no rule of its own. *)
Definition dispatch_error : exn :=
  NotImplementedError "Cannot differentiate Sub".

(** An arena that a run over [h0] has grown: the nodes of [h0] are in
    place and the new ones are well formed. *)
Definition arena_ok (h0 h : heap) : Prop := h0 `prefix_of` h /\ wf_heap h.

(** The only exception of the rules is the dispatch error, and it takes a
    [Sub] in scope to raise it. *)
Definition sub_raised (h0 : heap) (scope : addr -> Prop) (x : exn) : Prop :=
  x = dispatch_error /\
  exists e ops, scope e /\ h0 !! e = Some (Operator Sub ops).

(** ** Runs of the visitor *)

Section Runs.

Context {W R : Type}.
Variable heap_of : W -> heap.
Variable fn : addr -> list R -> W -> outcome (R * W).

Local Abbreviation visit := (visit heap_of fn).

(** [steps n c c']: [n] iterations lead from [c] to [c'], none of them
    raising. *)
Inductive steps : nat -> list addr * gmap nat R * W ->
                  list addr * gmap nat R * W -> Prop :=
| steps_O c : steps 0 c c
| steps_S n e stack visited w c' c'' :
    snd (visit e stack visited w) = Ok c' ->
    steps n c' c'' ->
    steps (S n) (e :: stack, visited, w) c''.

(** The ingredients of the proof rule: an invariant of the states, an
    order on them, what holds of a cached result, and which exceptions may
    come. *)
Variable Inv : W -> Prop.
Variable ext : W -> W -> Prop.
Variable Q : addr -> R -> W -> Prop.
Variable E : exn -> Prop.

(** Every cached result is as [Q] says. *)
Definition cache_ok (visited : gmap nat R) (w : W) : Prop :=
  forall a r, visited !! a = Some r -> Q a r w.

(** The run from [c] reaches a state whose next iteration raises. *)
Definition raises (c : list addr * gmap nat R * W) : Prop :=
  exists n e stack visited w x,
    steps n c (e :: stack, visited, w) /\
    snd (visit e stack visited w) = Raise x /\ E x.

(** The run from [l ++ stack] works [l] off: it reaches [stack] with every
    node of [l] cached. *)
Definition works_off (l stack : list addr) (visited : gmap nat R) (w : W)
    : Prop :=
  exists n visited' w',
    steps n (l ++ stack, visited, w) (stack, visited', w') /\
    Inv w' /\ ext w w' /\ cache_ok visited' w' /\
    (forall a, is_Some (visited !! a) -> is_Some (visited' !! a)) /\
    Forall (fun o => is_Some (visited' !! o)) l.

(** The result that the calls made so far have produced for the node [o]:
    that of the latest call on [o]. *)
Definition produced (earlier : list (@call W R)) (o : addr) : option R :=
  c ← last (filter (fun c => call_node c = o) earlier); call_result c.

(** A call in post-order: the node is in the arena the step function sees,
    and the arguments are, operand by operand and in the order of the
    operands, the results produced for them by the calls made before. *)
Definition call_ok (earlier : list (@call W R)) (c : @call W R) : Prop :=
  exists node,
    heap_of (call_world c) !! call_node c = Some node /\
    Forall2 (fun o a => produced earlier o = Some a)
      (operands node) (call_args c).

Definition postorder (log : list (@call W R)) : Prop :=
  forall l1 c l2, log = l1 ++ c :: l2 -> call_ok l1 c.

End Runs.

#[local] Unset Elimination Schemes.
(** The value of the expression at [e] under a pure step function [f]:
    [f] of the node and the values of its operands. *)
Inductive reduces {R : Type} (h : heap) (f : addr -> list R -> R)
    : addr -> R -> Prop :=
| reduces_node e node args :
    h !! e = Some node ->
    Forall2 (reduces h f) (operands node) args ->
    reduces h f e (f e args).
#[local] Set Elimination Schemes.

(** A pure step function as the visitor takes it. *)
Definition pure {R : Type} (f : addr -> list R -> R)
    : addr -> list R -> heap -> outcome (R * heap) :=
  fun e args h => Ok (f e args, h).

(** ** The order of a traversal *)

(** The nodes under [e] in the order a visitor without a cache would reduce
    them: the operands from the last to the first (the last one pushed is
    the first one popped), each with everything under it, and then [e].  A
    node that is shared occurs once for every path that leads to it. *)
Fixpoint walk (fuel : nat) (h : heap) (e : addr) : list addr :=
  match fuel with
  | O => []
  | S fuel' =>
      match h !! e with
      | None => []
      | Some node => (reverse (operands node) ≫= walk fuel' h) ++ [e]
      end
  end.

Definition traversal (h : heap) (e : addr) : list addr := walk (S e) h e.

(** No node under [e] is shared: the expression at [e] is a tree. *)
Definition tree_shaped (h : heap) (e : addr) : Prop := NoDup (traversal h e).

(** A step function together with a record of the nodes it was called on
    and returned for. *)
Definition logged {W R : Type} (fn : addr -> list R -> W -> outcome (R * W))
    : addr -> list R -> W * list addr -> outcome (R * (W * list addr)) :=
  fun e args s =>
    match fn e args (fst s) with
    | Ok (r, w') => Ok (r, (w', snd s ++ [e]))
    | Raise x => Raise x
    | OutOfFuel => OutOfFuel
    end.

(** The run from [l ++ stack] reduces the nodes of [l] and what is under
    them once each: it reaches [stack], its calls are the traversals of the
    nodes of [l] one after the other, and these are the nodes it has added
    to the cache. *)
Definition reduces_once {W R : Type} (heap_of : W -> heap)
    (fn : addr -> list R -> W -> outcome (R * W)) (h : heap)
    (l stack : list addr) (visited : gmap nat R) (w : W) : Prop :=
  exists n visited' w',
    steps heap_of fn n (l ++ stack, visited, w) (stack, visited', w') /\
    h `prefix_of` heap_of w' /\
    map call_node (calls heap_of fn n (l ++ stack) visited w)
      = l ≫= traversal h /\
    forall a, is_Some (visited' !! a) <->
              is_Some (visited !! a) \/ a ∈ l ≫= traversal h.

(** ** The cost of a run *)

(** The number of operands of a node. *)
Definition arity (h : heap) (a : addr) : nat :=
  match h !! a with
  | Some node => length (operands node)
  | None => 0
  end.

(** The operand references held by the nodes of a list. *)
Definition references (h : heap) (l : list addr) : nat :=
  sum_list_with (arity h) l.

(** A cache that holds a node holds its operands. *)
Definition closed {R : Type} (h : heap) (visited : gmap nat R) : Prop :=
  forall a node o,
    a ∈ dom visited -> h !! a = Some node -> o ∈ operands node ->
    o ∈ dom visited.

(** The run from [l ++ stack] reaches [stack]; the nodes [new] it adds to
    the cache are under the nodes of [l], and its calls are at least these
    nodes and at most one for each node of [l] and one for each operand
    reference of a new node. *)
Definition reduces_within {W R : Type} (heap_of : W -> heap)
    (fn : addr -> list R -> W -> outcome (R * W)) (h : heap)
    (l stack : list addr) (visited : gmap nat R) (w : W) : Prop :=
  exists n visited' w' (new : gset nat),
    steps heap_of fn n (l ++ stack, visited, w) (stack, visited', w') /\
    h `prefix_of` heap_of w' /\
    closed h visited' /\
    dom visited' = dom visited ∪ new /\
    new ## dom visited /\
    (forall a, a ∈ new -> exists o, o ∈ l /\ reach h o a) /\
    (forall o, o ∈ l -> o ∈ dom visited') /\
    length (elements new)
      <= length (calls heap_of fn n (l ++ stack) visited w) /\
    length (calls heap_of fn n (l ++ stack) visited w)
      <= length l + references h (elements new).

(** ** What a computation does to the arena *)

(** A computation that, when it returns, has constructed nodes and changed
    none. *)
Definition extends {A : Type} (m : M A) : Prop :=
  forall h a h', m h = Ok (a, h') -> h `prefix_of` h'.

(** A computation that returns, whatever the arena is. *)
Definition returns {A : Type} (m : M A) : Prop :=
  forall h, exists a h', m h = Ok (a, h').

(** ** The expressions of the examples *)

(** Running a construction in a fresh interpreter and rendering what it
    returns. *)
Definition rendered (float_str : float -> string) (m : M addr)
    : option string :=
  match m [] with
  | Ok (e, h) => render float_str h e
  | _ => None
  end.

(** [mul(add(symbol("x"), symbol("y")), symbol("z"))] *)
Definition product_of_sum : M addr :=
  x <- Symbol_init (Val (VStr "x")) ;;
  y <- Symbol_init (Val (VStr "y")) ;;
  s <- binop_l Add x (Ref y) ;;
  z <- Symbol_init (Val (VStr "z")) ;;
  binop_l Mul s (Ref z).

(** [add(mul(symbol("x"), symbol("y")), symbol("z"))] *)
Definition sum_of_product : M addr :=
  x <- Symbol_init (Val (VStr "x")) ;;
  y <- Symbol_init (Val (VStr "y")) ;;
  p <- binop_l Mul x (Ref y) ;;
  z <- Symbol_init (Val (VStr "z")) ;;
  binop_l Add p (Ref z).

(** A step function that counts its calls; the count is its own state. *)
Definition counting_step (e : addr) (args : list unit) (w : heap * nat)
    : outcome (unit * (heap * nat)) :=
  Ok (tt, (fst w, S (snd w))).

(** [x = Symbol("x"); e = x * x]: both operands of [e] are the one [x]. *)
Definition x_times_x : M addr :=
  x <- Symbol_init (Val (VStr "x")) ;;
  binop_l Mul x (Ref x).

(** [sub(symbol("x"), number(1))] *)
Definition x_minus_one : M addr :=
  x <- Symbol_init (Val (VStr "x")) ;;
  one <- Number_init (Val (VInt 1)) ;;
  binop_l Sub x (Ref one).

(** [x + y] and [x + x] *)
Definition x_plus_y : M addr :=
  x <- Symbol_init (Val (VStr "x")) ;;
  y <- Symbol_init (Val (VStr "y")) ;;
  binop_l Add x (Ref y).

Definition x_plus_x : M addr :=
  x <- Symbol_init (Val (VStr "x")) ;;
  binop_l Add x (Ref x).

(** * Lemmas and theorems *)

(** ** Construction *)

Lemma Number_init_ok v h :
  is_number v = true ->
  Number_init (Val v) h = Ok (length h, h ++ [Terminal Number v]).
Proof. intros Hv. unfold Number_init. by rewrite Hv. Qed.

Lemma Symbol_init_ok v h :
  is_str v = true ->
  Symbol_init (Val v) h = Ok (length h, h ++ [Terminal Symbol v]).
Proof. intros Hv. unfold Symbol_init. by rewrite Hv. Qed.

Lemma lookup_new (h : heap) (e : expression) :
  (h ++ [e]) !! length h = Some e.
Proof. rewrite lookup_app_r; [|lia]. by rewrite Nat.sub_diag. Qed.

(** C3.  [Number(value)] raises TypeError exactly when [value] is not a
    number and [Symbol(value)] raises TypeError exactly when [value] is not a
    string; otherwise the constructor returns a new [Terminal] of its class
    that holds [value], and leaves the existing nodes as they are. *)
Theorem constructors_validate (value : pyobj) (h : heap) :
  ((exists x, Number_init value h = Raise x) <-> isinstance_number value = false)
  /\ (forall x, Number_init value h = Raise x ->
        x = TypeError "Value passed to Number should be a number.")
  /\ (forall a h', Number_init value h = Ok (a, h') ->
        exists v, value = Val v /\ is_number v = true /\
                  h' = h ++ [Terminal Number v] /\
                  h' !! a = Some (Terminal Number v))
  /\ ((exists x, Symbol_init value h = Raise x) <-> isinstance_str value = false)
  /\ (forall x, Symbol_init value h = Raise x ->
        x = TypeError "Value passed to Symbol should be a string.")
  /\ (forall a h', Symbol_init value h = Ok (a, h') ->
        exists v, value = Val v /\ is_str v = true /\
                  h' = h ++ [Terminal Symbol v] /\
                  h' !! a = Some (Terminal Symbol v))
  /\ Number_init value h <> OutOfFuel
  /\ Symbol_init value h <> OutOfFuel.
Proof.
  unfold Number_init, Symbol_init, isinstance_number, isinstance_str, new, raise.
  destruct value as [a|v]; simpl.
  - repeat split; try congruence; eauto; intros; try discriminate.
  - destruct (is_number v) eqn:Hn, (is_str v) eqn:Hs;
      repeat split; try congruence; eauto;
      try (intros [x Hx]; discriminate);
      intros ? ? [= <- <-]; exists v; by rewrite lookup_new.
Qed.

(** ** Literal lifting *)

Lemma method_binary c : method c = binary c.
Proof. by destruct c. Qed.

Lemma rmethod_reflected c : rmethod c = reflected c.
Proof. by destruct c. Qed.

Lemma binop_l_ref c a b h :
  binop_l c a (Ref b) h = Ok (length h, h ++ [Operator c [a; b]]).
Proof. unfold binop_l. by rewrite method_binary. Qed.

Lemma binop_l_num c a v h :
  is_number v = true ->
  binop_l c a (Val v) h =
    Ok (S (length h), h ++ [Terminal Number v; Operator c [a; length h]]).
Proof.
  intros Hv. unfold binop_l. rewrite method_binary.
  unfold bind, binary. rewrite Hv. unfold bind. rewrite Number_init_ok by done.
  unfold ret. simpl. rewrite length_app, <- app_assoc, Nat.add_1_r. done.
Qed.

Lemma binop_r_num c v b h :
  is_number v = true ->
  binop_r c v b h =
    Ok (S (length h), h ++ [Terminal Number v; Operator c [length h; b]]).
Proof.
  intros Hv. unfold binop_r. rewrite rmethod_reflected.
  unfold bind, reflected. rewrite Hv. unfold bind. rewrite Number_init_ok by done.
  unfold ret. simpl. rewrite length_app, <- app_assoc, Nat.add_1_r. done.
Qed.

(** C4.  For each of the five operators, [expr <op> v] with a number [v]
    creates [Number(v)] and then the operator node on [(expr, Number(v))],
    and [v <op> expr] creates [Number(v)] and then the operator node on
    [(Number(v), expr)]: the operands stay in the order they were written
    in.  Two expressions are combined without lifting, again in order. *)
Theorem literal_lifting (c : ocls) (expr : addr) (v : pyval) (h : heap) :
  is_number v = true ->
  let n := length h in
  binop_l c expr (Val v) h =
    Ok (S n, h ++ [Terminal Number v; Operator c [expr; n]])
  /\ binop_r c v expr h =
    Ok (S n, h ++ [Terminal Number v; Operator c [n; expr]])
  /\ (forall other : addr,
        binop_l c expr (Ref other) h = Ok (n, h ++ [Operator c [expr; other]])).
Proof.
  intros Hv n. split; [|split].
  - by apply binop_l_num.
  - by apply binop_r_num.
  - intros other. apply binop_l_ref.
Qed.

Lemma literal_lifting_witness :
  is_number (VInt 3) = true
  /\ binop_l Add 0 (Val (VInt 3)) [Terminal Symbol (VStr "x")] =
       Ok (2, [Terminal Symbol (VStr "x"); Terminal Number (VInt 3);
               Operator Add [0; 1]])
  /\ binop_r Add (VInt 3) 0 [Terminal Symbol (VStr "x")] =
       Ok (2, [Terminal Symbol (VStr "x"); Terminal Number (VInt 3);
               Operator Add [1; 0]]).
Proof.
  split; [reflexivity|].
  destruct (literal_lifting Add 0 (VInt 3) [Terminal Symbol (VStr "x")]
              eq_refl) as (Hl & Hr & _).
  split; [exact Hl | exact Hr].
Defined.

(** ** Well-formed arenas *)

Lemma wf_nodeb_sound i e : wf_nodeb i e = true -> wf_node i e.
Proof.
  unfold wf_nodeb, wf_node. intros [Hops Har]%andb_true_iff. split.
  - apply Forall_forall. intros o Ho.
    rewrite forallb_forall in Hops. apply Nat.ltb_lt, Hops.
    by apply list_elem_of_In.
  - destruct e; [done|]. by apply Nat.eqb_eq.
Qed.

Lemma wf_from_sound h : forall k i e,
  wf_from k h = true -> h !! i = Some e -> wf_node (k + i) e.
Proof.
  induction h as [|e0 h IH]; intros k i e Hwf Hi; [done|].
  simpl in Hwf. apply andb_true_iff in Hwf as [H0 Hrest].
  destruct i as [|i]; simpl in Hi.
  - injection Hi as <-. rewrite Nat.add_0_r. by apply wf_nodeb_sound.
  - replace (k + S i) with (S k + i) by lia. by apply IH.
Qed.

Lemma wf_heap_check h : wf_from 0 h = true -> wf_heap h.
Proof. intros Hwf i e Hi. by apply (wf_from_sound h 0 i e). Qed.

Lemma wf_heap_nil : wf_heap [].
Proof. by apply wf_heap_check. Qed.

Lemma wf_operand_lt h a e o :
  wf_heap h -> h !! a = Some e -> o ∈ operands e -> o < a.
Proof.
  intros Hwf Ha Ho. destruct (Hwf a e Ha) as [Hops _].
  rewrite Forall_forall in Hops. by apply Hops.
Qed.

(** Appending a node whose operands are in the arena keeps it well formed. *)
Lemma wf_heap_snoc h e :
  wf_heap h -> wf_node (length h) e -> wf_heap (h ++ [e]).
Proof.
  intros Hwf He i e' Hi.
  destruct (decide (i < length h)) as [Hlt|Hge].
  - rewrite lookup_app_l in Hi by done. by apply Hwf.
  - rewrite lookup_app_r in Hi by lia.
    destruct (i - length h) as [|k] eqn:Hk; simpl in Hi; [|done].
    injection Hi as <-. by replace i with (length h) by lia.
Qed.

(** ** Rendering *)

Section RenderingFacts.

Variable float_str : float -> string.

Lemma str_mono h : forall n m a s,
  str float_str n h a = Some s -> n <= m -> str float_str m h a = Some s.
Proof.
  induction n as [|n IH]; intros m a s Hs Hle; [done|].
  destruct m as [|m]; [lia|]. simpl in *.
  destruct (h !! a) as [[tc v|c ops]|]; try done.
  destruct (mapM _ ops) as [parts|] eqn:Hparts; [|done].
  simpl in Hs. injection Hs as <-.
  apply mapM_Some in Hparts.
  assert (Hparts' : mapM (fun o =>
            operand ← h !! o; s ← str float_str m h o;
            Some (parentheses (oprecedence c) operand s)) ops = Some parts).
  { apply mapM_Some. eapply Forall2_impl; [exact Hparts|].
    intros o p Hp. simpl in *.
    destruct (h !! o) as [operand|]; [|done]. simpl in *.
    destruct (str float_str n h o) as [so|] eqn:Hso; [|done].
    rewrite (IH m o so Hso) by lia. exact Hp. }
  by rewrite Hparts'.
Qed.

Lemma render_total h :
  wf_heap h ->
  forall a, a < length h -> is_Some (render float_str h a).
Proof.
  intros Hwf a. unfold render.
  induction a as [a IH] using lt_wf_ind. intros Ha.
  destruct (lookup_lt_is_Some_2 h a Ha) as [e He]. simpl. rewrite He.
  destruct e as [tc v|c ops]; [by eexists|].
  assert (Hparts : exists parts, Forall2 (fun o p =>
            (operand ← h !! o; s ← str float_str a h o;
             Some (parentheses (oprecedence c) operand s)) = Some p) ops parts).
  { assert (Hlt : Forall (fun o => o < a) ops) by apply (Hwf a _ He).
    clear He. induction ops as [|o ops IHops]; [by exists []|].
    apply Forall_cons in Hlt as [Ho Hlt].
    destruct (IHops Hlt) as [parts Hparts].
    destruct (IH o Ho ltac:(lia)) as [so Hso].
    destruct (lookup_lt_is_Some_2 h o ltac:(lia)) as [eo Heo].
    exists (parentheses (oprecedence c) eo so :: parts).
    constructor; [|done]. rewrite Heo. simpl.
    by rewrite (str_mono h (S o) a o so Hso) by lia. }
  destruct Hparts as [parts Hparts]. apply mapM_Some in Hparts.
  rewrite Hparts. by eexists.
Qed.

(** The rendering of a binary operator node, from the renderings of its
    operands. *)
Lemma render_operator h a c l r :
  wf_heap h ->
  h !! a = Some (Operator c [l; r]) ->
  exists el er sl sr,
    h !! l = Some el /\ h !! r = Some er /\
    render float_str h l = Some sl /\ render float_str h r = Some sr /\
    render float_str h a =
      Some ((if precedence el <? oprecedence c
             then "(" +:+ sl +:+ ")" else sl)
            +:+ " " +:+ symbol c +:+ " " +:+
            (if precedence er <? oprecedence c
             then "(" +:+ sr +:+ ")" else sr)).
Proof.
  intros Hwf Ha.
  assert (Hl : l < a) by (eapply wf_operand_lt; eauto; simpl; set_solver).
  assert (Hr : r < a) by (eapply wf_operand_lt; eauto; simpl; set_solver).
  pose proof (lookup_lt_Some _ _ _ Ha) as Hlen.
  destruct (lookup_lt_is_Some_2 h l ltac:(lia)) as [el Hel].
  destruct (lookup_lt_is_Some_2 h r ltac:(lia)) as [er Her].
  destruct (render_total h Hwf l ltac:(lia)) as [sl Hsl].
  destruct (render_total h Hwf r ltac:(lia)) as [sr Hsr].
  exists el, er, sl, sr. repeat split; try done.
  unfold render in *. simpl. rewrite Ha. simpl. rewrite Hel, Her. simpl.
  rewrite (str_mono h (S l) a l sl Hsl) by lia.
  rewrite (str_mono h (S r) a r sr Hsr) by lia.
  simpl. unfold parentheses.
  destruct (precedence el <? oprecedence c), (precedence er <? oprecedence c);
    simpl; by destruct c.
Qed.

End RenderingFacts.

(** C5.  The precedence levels are Add/Sub = 0, Mul/Div = 1, Pow = 2 and
    every terminal lies above every operator.  A binary operator node
    renders as its two operands' renderings around its symbol, an operand
    wrapped in parentheses exactly when its precedence is strictly lower than
    the node's own; an operand of the same precedence is left bare.  The two
    examples render as "(x + y) * z" and "x * y + z". *)
Theorem render_parenthesizes (float_str : float -> string) :
  (oprecedence Add = 0 /\ oprecedence Sub = 0 /\ oprecedence Mul = 1 /\
   oprecedence Div = 1 /\ oprecedence Pow = 2 /\
   forall c tc v, oprecedence c < precedence (Terminal tc v))
  /\ (forall (h : heap) (a : addr) c l r,
        wf_heap h ->
        h !! a = Some (Operator c [l; r]) ->
        exists el er sl sr,
          h !! l = Some el /\ h !! r = Some er /\
          render float_str h l = Some sl /\ render float_str h r = Some sr /\
          render float_str h a =
            Some ((if precedence el <? oprecedence c
                   then "(" +:+ sl +:+ ")" else sl)
                  +:+ " " +:+ symbol c +:+ " " +:+
                  (if precedence er <? oprecedence c
                   then "(" +:+ sr +:+ ")" else sr)))
  /\ rendered float_str product_of_sum = Some "(x + y) * z"%string
  /\ rendered float_str sum_of_product = Some "x * y + z"%string.
Proof.
  split; [|split; [|split]].
  - repeat split. intros c tc v. destruct c; simpl; lia.
  - intros h a c l r Hwf Ha. by apply render_operator.
  - reflexivity.
  - reflexivity.
Qed.

(** The rule at work on [x - (y - z)], built with no literal in it: the
    right operand has the precedence of its parent and is not wrapped. *)
Lemma render_parenthesizes_witness :
  let h := [Terminal Symbol (VStr "x"); Terminal Symbol (VStr "y");
            Terminal Symbol (VStr "z"); Operator Sub [1; 2];
            Operator Sub [0; 3]] in
  wf_heap h /\
  h !! 4 = Some (Operator Sub [0; 3]) /\
  exists el er sl sr,
    h !! 0 = Some el /\ h !! 3 = Some er /\
    render (fun _ => ""%string) h 0 = Some sl /\
    render (fun _ => ""%string) h 3 = Some sr /\
    render (fun _ => ""%string) h 4 =
      Some ((if precedence el <? oprecedence Sub
             then "(" +:+ sl +:+ ")" else sl)
            +:+ " " +:+ symbol Sub +:+ " " +:+
            (if precedence er <? oprecedence Sub
             then "(" +:+ sr +:+ ")" else sr)).
Proof.
  intros h.
  assert (Hwf : wf_heap h) by (apply wf_heap_check; reflexivity).
  split; [exact Hwf|]. split; [reflexivity|].
  exact (proj1 (proj2 (render_parenthesizes (fun _ => ""%string)))
           h 4 Sub 0 3 Hwf eq_refl).
Defined.

(** ** The loop of the visitor *)

(** No operand is left unvisited exactly when all of them are cached. *)
Lemma filter_unvisited_nil {R} (visited : gmap nat R) (ops : list addr) :
  filter (fun o => visited !! o = None) ops = [] <->
  Forall (fun o => is_Some (visited !! o)) ops.
Proof.
  induction ops as [|o ops IH]; [done|].
  rewrite filter_cons, Forall_cons.
  destruct (decide (visited !! o = None)) as [Hn|Hs].
  - split; [done|]. intros [[r Hr] _]. congruence.
  - rewrite IH. split; [|tauto]. intros Hall. split; [|done].
    by destruct (visited !! o); [eexists|].
Qed.

Section PostvisitorFacts.

Context {W R : Type}.
Variable heap_of : W -> heap.
Variable fn : addr -> list R -> W -> outcome (R * W).

Local Abbreviation visit := (visit heap_of fn).
Local Abbreviation while_stack := (while_stack heap_of fn).
Local Abbreviation calls := (calls heap_of fn).
Local Abbreviation postvisitor := (postvisitor heap_of fn).
Local Abbreviation steps := (steps heap_of fn).

Lemma while_stack_nil n visited w :
  while_stack n [] visited w = Ok (visited, w).
Proof. by destruct n. Qed.

(** A run that ended is not changed by more fuel. *)
Lemma while_stack_more k : forall n stack visited w,
  while_stack n stack visited w <> OutOfFuel ->
  while_stack (n + k) stack visited w = while_stack n stack visited w.
Proof.
  induction n as [|n IH]; intros stack visited w Hres.
  - destruct stack; simpl in *; [|done]. by destruct k.
  - destruct stack as [|e stack]; [done|]. simpl in *.
    destruct (snd (visit e stack visited w)) as [[[st' v'] w']|x|]; try done.
    by apply IH.
Qed.

Lemma postvisitor_more n k expr w :
  postvisitor n expr w <> OutOfFuel ->
  postvisitor (n + k) expr w = postvisitor n expr w.
Proof.
  unfold postvisitor. intros Hres.
  rewrite while_stack_more; [done|].
  by destruct (while_stack n [expr] ∅ w).
Qed.

Lemma calls_more k : forall n stack visited w,
  while_stack n stack visited w <> OutOfFuel ->
  calls (n + k) stack visited w = calls n stack visited w.
Proof.
  induction n as [|n IH]; intros stack visited w Hres.
  - destruct stack; simpl in *; [|done]. by destruct k.
  - destruct stack as [|e stack]; [done|]. simpl in *.
    destruct (visit e stack visited w) as [c [[[st' v'] w']|x|]]; try done.
    simpl in *. f_equal. by apply IH.
Qed.

Lemma steps_trans n m c c' c'' :
  steps n c c' -> steps m c' c'' -> steps (n + m) c c''.
Proof.
  induction 1 as [|n e st V w c1 c2 Hv _ IH]; intros Hm; [done|].
  simpl. eapply steps_S; eauto.
Qed.

Lemma steps_one e stack visited w c' :
  snd (visit e stack visited w) = Ok c' ->
  steps 1 (e :: stack, visited, w) c'.
Proof. intros Hv. eapply steps_S; [exact Hv|constructor]. Qed.

Lemma steps_while n st V w st' V' w' :
  steps n (st, V, w) (st', V', w') ->
  forall m, while_stack (n + m) st V w = while_stack m st' V' w'.
Proof.
  intros Hs. remember (st, V, w) as c eqn:Hc.
  remember (st', V', w') as c' eqn:Hc'.
  revert st V w Hc.
  induction Hs as [c|n e st0 V0 w0 c1 c2 Hv Hs IH]; intros st V w Hc m; subst.
  - by injection Hc as -> -> ->.
  - injection Hc as <- <- <-. simpl. rewrite Hv.
    destruct c1 as [[st1 V1] w1]. by apply IH.
Qed.

Lemma steps_while_raise n st V w e st' V' w' x :
  steps n (st, V, w) (e :: st', V', w') ->
  snd (visit e st' V' w') = Raise x ->
  forall m, while_stack (n + S m) st V w = Raise x.
Proof.
  intros Hs Hx m. rewrite (steps_while _ _ _ _ _ _ _ Hs). simpl.
  by rewrite Hx.
Qed.

(** The two branches of the loop body. *)
Lemma visit_expand e stack visited w node :
  heap_of w !! e = Some node ->
  filter (fun o => visited !! o = None) (operands node) <> [] ->
  snd (visit e stack visited w) =
    Ok (reverse (filter (fun o => visited !! o = None) (operands node))
          ++ e :: stack, visited, w).
Proof.
  intros He Hu. unfold visit. rewrite He.
  by destruct (filter _ (operands node)).
Qed.

Lemma visit_apply e stack visited w node :
  heap_of w !! e = Some node ->
  Forall (fun o => is_Some (visited !! o)) (operands node) ->
  exists args,
    Forall2 (fun o a => visited !! o = Some a) (operands node) args /\
    visit e stack visited w =
      match fn e args w with
      | Ok (r, w') =>
          (Some (Call e w args (Some r)), Ok (stack, <[e := r]> visited, w'))
      | Raise x => (Some (Call e w args None), Raise x)
      | OutOfFuel => (Some (Call e w args None), OutOfFuel)
      end.
Proof.
  intros He Hall. unfold visit. rewrite He.
  apply filter_unvisited_nil in Hall as Hnil. rewrite Hnil.
  assert (Hargs : exists args,
            Forall2 (fun o a => visited !! o = Some a) (operands node) args).
  { clear Hnil He. induction Hall as [|o ops [r Hr] _ [args IH]].
    - by exists [].
    - exists (r :: args). by constructor. }
  destruct Hargs as [args Hargs]. exists args. split; [done|].
  apply mapM_Some in Hargs. by rewrite Hargs.
Qed.

End PostvisitorFacts.

(** ** A proof rule for the visitor

    Over a well-formed arena [h0], a step function that establishes [Q] at
    a node from [Q] at the node's operands establishes [Q] at the root, and
    the run ends: either with a result, or with an exception of the step
    function. *)

Section PostvisitorRule.

Context {W R : Type}.
Variable heap_of : W -> heap.
Variable fn : addr -> list R -> W -> outcome (R * W).

Local Abbreviation visit := (visit heap_of fn).
Local Abbreviation steps := (steps heap_of fn).
Local Abbreviation postvisitor := (postvisitor heap_of fn).

Variable h0 : heap.
Hypothesis wf0 : wf_heap h0.

(** [Inv] holds of every state the run passes through and [ext] relates
    each state to the later ones; the nodes of [h0] stay as they are. *)
Variable Inv : W -> Prop.
Variable ext : W -> W -> Prop.
Hypothesis ext_refl : forall w, ext w w.
Hypothesis ext_trans : forall w1 w2 w3, ext w1 w2 -> ext w2 w3 -> ext w1 w3.
Hypothesis Inv_heap :
  forall w e, Inv w -> e < length h0 -> heap_of w !! e = h0 !! e.

(** [scope] holds of the nodes the run may come to: the root and whatever
    lies under it. *)
Variable scope : addr -> Prop.
Hypothesis scope_closed :
  forall e node o,
    scope e -> h0 !! e = Some node -> o ∈ operands node -> scope o.

Variable Q : addr -> R -> W -> Prop.
Variable E : exn -> Prop.
Hypothesis Q_mono : forall w w' e r, ext w w' -> Q e r w -> Q e r w'.
Hypothesis fn_spec :
  forall e node args w,
    scope e -> Inv w -> h0 !! e = Some node ->
    Forall2 (fun o a => Q o a w) (operands node) args ->
    match fn e args w with
    | Ok (r, w') => Inv w' /\ ext w w' /\ Q e r w'
    | Raise x => E x
    | OutOfFuel => False
    end.

Local Abbreviation cache_ok := (cache_ok Q).
Local Abbreviation raises := (raises heap_of fn E).
Local Abbreviation works_off := (works_off heap_of fn Inv ext Q).

Lemma raises_later n c c' : steps n c c' -> raises c' -> raises c.
Proof.
  intros Hs (m & e & st & V & w & x & Hs' & Hx & HE).
  exists (n + m), e, st, V, w, x. split; [|done].
  eapply steps_trans; eauto.
Qed.

(** A node whose operands are all cached is handed to [fn]. *)
Lemma apply_step e stack visited w :
  e < length h0 -> scope e ->
  Inv w -> cache_ok visited w ->
  (forall node, h0 !! e = Some node ->
     Forall (fun o => is_Some (visited !! o)) (operands node)) ->
  works_off [e] stack visited w \/ raises (e :: stack, visited, w).
Proof.
  intros He Hscope HI Hc Hall.
  destruct (lookup_lt_is_Some_2 h0 e He) as [node Hnode].
  specialize (Hall node Hnode).
  assert (Hw : heap_of w !! e = Some node) by (by rewrite Inv_heap).
  destruct (visit_apply heap_of fn e stack visited w node Hw Hall)
    as (args & Hargs & Hvisit).
  assert (HQ : Forall2 (fun o a => Q o a w) (operands node) args).
  { eapply Forall2_impl; [exact Hargs|]. intros o a Ho. by apply Hc. }
  pose proof (fn_spec e node args w Hscope HI Hnode HQ) as Hfn.
  destruct (fn e args w) as [[r w']|x|] eqn:Hres; [|right|done].
  - left. destruct Hfn as (HI' & Hext & HQe).
    exists 1, (<[e := r]> visited), w'. repeat split; try done.
    + apply steps_one. simpl. by rewrite Hvisit.
    + intros a r'. destruct (decide (a = e)) as [->|Hne].
      * rewrite lookup_insert_eq. by intros [= <-].
      * rewrite lookup_insert_ne by done. intros Ha.
        eapply Q_mono; [exact Hext|]. by apply Hc.
    + intros a Ha. destruct (decide (a = e)) as [->|Hne].
      * rewrite lookup_insert_eq. by eexists.
      * by rewrite lookup_insert_ne.
    + constructor; [|done]. rewrite lookup_insert_eq. by eexists.
  - exists 0, e, stack, visited, w, x. split; [constructor|].
    split; [by rewrite Hvisit|done].
Qed.

(** Working off a list, given that each of its nodes can be worked off. *)
Lemma works_off_list (l : list addr) :
  Forall (fun o => forall stack visited w,
            Inv w -> cache_ok visited w ->
            works_off [o] stack visited w \/ raises (o :: stack, visited, w)) l ->
  forall stack visited w,
    Inv w -> cache_ok visited w ->
    works_off l stack visited w \/ raises (l ++ stack, visited, w).
Proof.
  induction 1 as [|o l Ho _ IH]; intros stack visited w HI Hc.
  - left. exists 0, visited, w. repeat split; try done. constructor.
  - destruct (Ho (l ++ stack) visited w HI Hc)
      as [(n1 & V1 & w1 & Hs1 & HI1 & He1 & Hc1 & Hk1 & Hin1)|Hr]; [|by right].
    destruct (IH stack V1 w1 HI1 Hc1)
      as [(n2 & V2 & w2 & Hs2 & HI2 & He2 & Hc2 & Hk2 & Hin2)|Hr].
    + left. exists (n1 + n2), V2, w2. repeat split; try done.
      * eapply steps_trans; eauto.
      * eauto.
      * eauto.
      * constructor; [|done]. apply Hk2. by apply Forall_inv in Hin1.
    + right. eapply raises_later; eauto.
Qed.

(** Every node of [h0] on top of the stack is worked off. *)
Lemma works_off_node : forall e,
  e < length h0 -> scope e ->
  forall stack visited w,
    Inv w -> cache_ok visited w ->
    works_off [e] stack visited w \/ raises (e :: stack, visited, w).
Proof.
  induction e as [e IH] using lt_wf_ind.
  intros He Hscope stack visited w HI Hc.
  destruct (lookup_lt_is_Some_2 h0 e He) as [node Hnode].
  assert (Hw : heap_of w !! e = Some node) by (by rewrite Inv_heap).
  set (u := filter (fun o => visited !! o = None) (operands node)).
  destruct (decide (u = [])) as [Hu|Hu].
  - apply apply_step; try done.
    intros node' Hnode'. replace node' with node by congruence.
    by apply filter_unvisited_nil.
  - pose proof (visit_expand heap_of fn e stack visited w node Hw Hu) as Hv.
    fold u in Hv.
    assert (Hbelow : Forall (fun o => o < e /\ scope o) (reverse u)).
    { apply Forall_forall. intros o Ho.
      apply elem_of_reverse, list_elem_of_filter in Ho as [_ Ho].
      split; [eapply wf_operand_lt; eauto|eapply scope_closed; eauto]. }
    assert (Hlist : Forall (fun o => forall stack visited w,
              Inv w -> cache_ok visited w ->
              works_off [o] stack visited w \/
              raises (o :: stack, visited, w)) (reverse u)).
    { eapply Forall_impl; [exact Hbelow|]. intros o [Ho Hso]. simpl in *.
      intros st V w'. apply IH; [done|lia|done]. }
    destruct (works_off_list (reverse u) Hlist (e :: stack) visited w HI Hc)
      as [(n1 & V1 & w1 & Hs1 & HI1 & He1 & Hc1 & Hk1 & Hin1)|Hr].
    + assert (Hall : forall node', h0 !! e = Some node' ->
                Forall (fun o => is_Some (V1 !! o)) (operands node')).
      { intros node' Hnode'. replace node' with node by congruence.
        apply Forall_forall. intros o Ho.
        destruct (visited !! o) as [r|] eqn:Hr.
        - apply Hk1. by rewrite Hr.
        - rewrite Forall_forall in Hin1. apply Hin1, elem_of_reverse.
          by apply list_elem_of_filter. }
      destruct (apply_step e stack V1 w1 He Hscope HI1 Hc1 Hall)
        as [(n2 & V2 & w2 & Hs2 & HI2 & He2 & Hc2 & Hk2 & Hin2)|Hr].
      * left. exists (1 + (n1 + n2)), V2, w2. repeat split; try done.
        -- eapply steps_trans; [by apply steps_one|].
           eapply steps_trans; eauto.
        -- eauto.
        -- eauto.
      * right. eapply raises_later; [by apply steps_one|].
        eapply raises_later; eauto.
    + right. eapply raises_later; [by apply steps_one|done].
Qed.

(** The rule: from a state that satisfies [Inv], the visitor ends on every
    root in [h0]; its result satisfies [Q] at the root, and an exception is
    one of [fn]'s. *)
Lemma postvisitor_rule root w :
  root < length h0 -> scope root -> Inv w ->
  exists n, forall k,
    match postvisitor (n + k) root w with
    | Ok (r, w') => Inv w' /\ ext w w' /\ Q root r w'
    | Raise x => E x
    | OutOfFuel => False
    end.
Proof.
  intros Hroot Hscope HI.
  destruct (works_off_node root Hroot Hscope [] ∅ w HI)
    as [(n & V & w' & Hs & HI' & He & Hc & _ & Hin)|Hr].
  { intros a r. by rewrite lookup_empty. }
  - exists n. intros k. unfold postvisitor.
    rewrite (steps_while _ _ _ _ _ _ _ _ _ Hs), while_stack_nil.
    apply Forall_inv in Hin as [r Hr]. rewrite Hr.
    repeat split; try done. by apply Hc.
  - destruct Hr as (n & e & st & V & w' & x & Hs & Hx & HE).
    exists (S n). intros k. unfold postvisitor.
    replace (S n + k) with (n + S k) by lia.
    by rewrite (steps_while_raise _ _ _ _ _ _ _ _ _ _ _ Hs Hx).
Qed.

End PostvisitorRule.

(** ** What the arithmetic builds *)

Lemma wf_node_terminal i c v : wf_node i (Terminal c v).
Proof. split; [constructor|done]. Qed.

Lemma wf_node_operator i c x y :
  x < i -> y < i -> wf_node i (Operator c [x; y]).
Proof. intros Hx Hy. split; [|done]. simpl. by repeat constructor. Qed.

Lemma lookup_new2 (h : heap) (e1 e2 : expression) :
  (h ++ [e1; e2]) !! length h = Some e1 /\
  (h ++ [e1; e2]) !! S (length h) = Some e2.
Proof.
  split.
  - rewrite lookup_app_r by lia. by rewrite Nat.sub_diag.
  - rewrite lookup_app_r by lia.
    by replace (S (length h) - length h) with 1 by lia.
Qed.

Lemma wf_heap_snoc2 h e1 e2 :
  wf_heap h -> wf_node (length h) e1 -> wf_node (S (length h)) e2 ->
  wf_heap (h ++ [e1; e2]).
Proof.
  intros Hwf H1 H2. change (h ++ [e1; e2]) with (h ++ [e1] ++ [e2]).
  rewrite app_assoc. apply wf_heap_snoc; [by apply wf_heap_snoc|].
  rewrite length_app. simpl. by rewrite Nat.add_1_r.
Qed.

Lemma dvalid_mono h h' d : h `prefix_of` h' -> dvalid h d -> dvalid h' d.
Proof.
  intros Hp. destruct d as [f|a]; [done|]. simpl.
  apply prefix_length in Hp. lia.
Qed.

Lemma lifted_mono h h1 h2 d x :
  h1 `prefix_of` h2 -> lifted h h1 d x -> lifted h h2 d x.
Proof.
  intros Hp. destruct d as [f|a]; [|done]. simpl. intros [Hx Hl].
  split; [done|]. eapply prefix_lookup_Some; eauto.
Qed.

(** [l <op> r] for two expressions. *)
Lemma binop_l_ref_spec c l r h :
  exists a h',
    binop_l c l (Ref r) h = Ok (a, h') /\ h `prefix_of` h' /\
    length h <= a /\ h' !! a = Some (Operator c [l; r]) /\
    (wf_heap h -> l < length h -> r < length h -> wf_heap h').
Proof.
  exists (length h), (h ++ [Operator c [l; r]]).
  rewrite binop_l_ref. split_and!; try done.
  - by apply prefix_app_r.
  - apply lookup_new.
  - intros Hwf Hl Hr. apply wf_heap_snoc; [done|].
    by apply wf_node_operator.
Qed.

(** [l <op> n] for an expression and an [int] literal. *)
Lemma binop_l_int_spec c l z h :
  exists a y h',
    binop_l c l (Val (VInt z)) h = Ok (a, h') /\ h `prefix_of` h' /\
    length h <= a /\ h' !! a = Some (Operator c [l; y]) /\
    h' !! y = Some (Terminal Number (VInt z)) /\
    (wf_heap h -> l < length h -> wf_heap h').
Proof.
  exists (S (length h)), (length h),
    (h ++ [Terminal Number (VInt z); Operator c [l; length h]]).
  rewrite binop_l_num by done.
  destruct (lookup_new2 h (Terminal Number (VInt z))
              (Operator c [l; length h])) as [H1 H2].
  split_and!; try done.
  - by apply prefix_app_r.
  - lia.
  - intros Hwf Hl. apply wf_heap_snoc2; [done|apply wf_node_terminal|].
    apply wf_node_operator; lia.
Qed.

(** [d <op> r] for a result and an expression. *)
Lemma dbinop_r_spec c d r h :
  exists a x h',
    dbinop_r c d r h = Ok (a, h') /\ h `prefix_of` h' /\
    length h <= a /\ h' !! a = Some (Operator c [x; r]) /\
    lifted h h' d x /\
    (wf_heap h -> dvalid h d -> r < length h -> wf_heap h').
Proof.
  destruct d as [f|l]; simpl.
  - exists (S (length h)), (length h),
      (h ++ [Terminal Number (VFloat f); Operator c [length h; r]]).
    rewrite binop_r_num by done.
    destruct (lookup_new2 h (Terminal Number (VFloat f))
                (Operator c [length h; r])) as [H1 H2].
    split_and!; try done.
    + by apply prefix_app_r.
    + lia.
    + intros Hwf _ Hr. apply wf_heap_snoc2; [done|apply wf_node_terminal|].
      apply wf_node_operator; lia.
  - destruct (binop_l_ref_spec c l r h) as (a & h' & Heq & Hp & Ha & Hn & Hwf).
    exists a, l, h'. split_and!; try done.
Qed.

(** [l <op> d] for an expression and a result. *)
Lemma dbinop_l_spec c l d h :
  exists a y h',
    dbinop_l c l d h = Ok (a, h') /\ h `prefix_of` h' /\
    length h <= a /\ h' !! a = Some (Operator c [l; y]) /\
    lifted h h' d y /\
    (wf_heap h -> l < length h -> dvalid h d -> wf_heap h').
Proof.
  unfold dbinop_l. destruct d as [f|r]; simpl.
  - exists (S (length h)), (length h),
      (h ++ [Terminal Number (VFloat f); Operator c [l; length h]]).
    rewrite binop_l_num by done.
    destruct (lookup_new2 h (Terminal Number (VFloat f))
                (Operator c [l; length h])) as [H1 H2].
    split_and!; try done.
    + by apply prefix_app_r.
    + lia.
    + intros Hwf Hl _. apply wf_heap_snoc2; [done|apply wf_node_terminal|].
      apply wf_node_operator; lia.
  - destruct (binop_l_ref_spec c l r h) as (a & h' & Heq & Hp & Ha & Hn & Hwf).
    exists a, r, h'. split_and!; try done.
Qed.

(** [l + r] for two results: a float from two floats, and otherwise an
    [Add] node over the two operands, each float lifted into a [Number]. *)
Lemma dadd_floats x y h : dadd (DFloat x) (DFloat y) h = Ok (DFloat (x + y), h).
Proof. reflexivity. Qed.

Lemma dadd_expr_spec l r h :
  (exists a, l = DExpr a) \/ (exists b, r = DExpr b) ->
  exists a x y h',
    dadd l r h = Ok (DExpr a, h') /\ h `prefix_of` h' /\
    length h <= a /\ h' !! a = Some (Operator Add [x; y]) /\
    lifted h h' l x /\ lifted h h' r y /\
    (wf_heap h -> dvalid h l -> dvalid h r -> wf_heap h').
Proof.
  intros Hex.
  destruct l as [f|a].
  - destruct r as [g|b]; [destruct Hex as [[? ?]|[? ?]]; discriminate|].
    destruct (dbinop_r_spec Add (DFloat f) b h)
      as (a & x & h' & Heq & Hp & Ha & Hn & Hl & Hwf).
    exists a, x, b, h'. unfold dadd, bind. simpl in Heq. rewrite Heq.
    split_and!; done.
  - destruct (dbinop_l_spec Add a r h)
      as (a' & y & h' & Heq & Hp & Ha & Hn & Hl & Hwf).
    exists a', a, y, h'. unfold dadd, bind. unfold dbinop_l in Heq.
    rewrite Heq. split_and!; try done.
Qed.

Lemma lifted_base h h1 h2 d x :
  h `prefix_of` h1 -> lifted h1 h2 d x -> lifted h h2 d x.
Proof.
  intros Hp. destruct d as [f|a]; [|done]. simpl. intros [Hx Hl].
  split; [|done]. apply prefix_length in Hp. lia.
Qed.

(** ** The rules of [differentiate] *)

Lemma bind_ret {A B} (a : A) (k : A -> M B) h :
  (x <- ret a ;; k x) h = k a h.
Proof. reflexivity. Qed.

Lemma bind_ok {A B} (m : M A) (k : A -> M B) h a h' :
  m h = Ok (a, h') -> (x <- m ;; k x) h = k a h'.
Proof. intros Hm. unfold bind. by rewrite Hm. Qed.

Ltac mrun :=
  repeat first [ rewrite bind_ret | erewrite bind_ok by eassumption ].

Ltac dispatch He :=
  unfold differentiate;
  erewrite bind_ok by (unfold deref; by rewrite He);
  cbn [index lookup list_lookup].

(** A node of an earlier arena is a node of every later one. *)
Ltac lookup_up :=
  first [ eassumption
        | (eapply prefix_lookup_Some; [|eassumption]); lookup_up ].

Lemma differentiate_Number var e v o h :
  h !! e = Some (Terminal Number v) ->
  differentiate var e o h = Ok (DFloat 0, h).
Proof. intros He. by dispatch He. Qed.

Lemma differentiate_Symbol var e v o h :
  h !! e = Some (Terminal Symbol v) ->
  differentiate var e o h =
    Ok (if value_eq v var then DFloat 1 else DFloat 0, h).
Proof. intros He. by dispatch He. Qed.

Lemma differentiate_Sub var e ops o h :
  h !! e = Some (Operator Sub ops) ->
  differentiate var e o h =
    Raise (NotImplementedError "Cannot differentiate Sub").
Proof. intros He. by dispatch He. Qed.

Lemma differentiate_Add var e ops da db h :
  h !! e = Some (Operator Add ops) ->
  differentiate var e [da; db] h = dadd da db h.
Proof. intros He. by dispatch He. Qed.

(** The product rule: [(da * b) + (db * a)]. *)
Lemma differentiate_Mul var e a b da db h :
  h !! e = Some (Operator Mul [a; b]) ->
  exists r t1 t2 x y h',
    differentiate var e [da; db] h = Ok (DExpr r, h') /\
    h `prefix_of` h' /\
    h' !! r = Some (Operator Add [t1; t2]) /\
    h' !! t1 = Some (Operator Mul [x; b]) /\
    h' !! t2 = Some (Operator Mul [y; a]) /\
    lifted h h' da x /\ lifted h h' db y /\
    (wf_heap h -> a < length h -> b < length h ->
     dvalid h da -> dvalid h db -> wf_heap h').
Proof.
  intros He.
  destruct (dbinop_r_spec Mul da b h)
    as (t1 & x & h1 & E1 & P1 & L1 & N1 & X1 & W1).
  destruct (dbinop_r_spec Mul db a h1)
    as (t2 & y & h2 & E2 & P2 & L2 & N2 & X2 & W2).
  destruct (binop_l_ref_spec Add t1 t2 h2)
    as (r & h3 & E3 & P3 & L3 & N3 & W3).
  exists r, t1, t2, x, y, h3. split_and!.
  - dispatch He. by mrun.
  - by do 2 (etrans; [eassumption|]).
  - done.
  - lookup_up.
  - lookup_up.
  - apply (lifted_mono h h1); [by etrans|done].
  - apply (lifted_base h h1); [done|]. by apply (lifted_mono h1 h2).
  - intros Hwf Ha Hb Hda Hdb.
    pose proof (prefix_length _ _ P1). pose proof (prefix_length _ _ P2).
    pose proof (lookup_lt_Some _ _ _ N1). pose proof (lookup_lt_Some _ _ _ N2).
    apply W3; [apply W2; [by apply W1| |]| |]; try lia.
    by apply (dvalid_mono h).
Qed.

(** The quotient rule: [((da * b) - (a * db)) / (b ** 2)]. *)
Lemma differentiate_Div var e a b da db h :
  h !! e = Some (Operator Div [a; b]) ->
  exists r n p t1 t2 x y two h',
    differentiate var e [da; db] h = Ok (DExpr r, h') /\
    h `prefix_of` h' /\
    h' !! r = Some (Operator Div [n; p]) /\
    h' !! n = Some (Operator Sub [t1; t2]) /\
    h' !! t1 = Some (Operator Mul [x; b]) /\
    h' !! t2 = Some (Operator Mul [a; y]) /\
    h' !! p = Some (Operator Pow [b; two]) /\
    h' !! two = Some (Terminal Number (VInt 2)) /\
    lifted h h' da x /\ lifted h h' db y /\
    (wf_heap h -> a < length h -> b < length h ->
     dvalid h da -> dvalid h db -> wf_heap h').
Proof.
  intros He.
  destruct (dbinop_r_spec Mul da b h)
    as (t1 & x & h1 & E1 & P1 & L1 & N1 & X1 & W1).
  destruct (dbinop_l_spec Mul a db h1)
    as (t2 & y & h2 & E2 & P2 & L2 & N2 & X2 & W2).
  destruct (binop_l_ref_spec Sub t1 t2 h2)
    as (n & h3 & E3 & P3 & L3 & N3 & W3).
  destruct (binop_l_int_spec Pow b 2 h3)
    as (p & two & h4 & E4 & P4 & L4 & N4 & T4 & W4).
  destruct (binop_l_ref_spec Div n p h4)
    as (r & h5 & E5 & P5 & L5 & N5 & W5).
  exists r, n, p, t1, t2, x, y, two, h5. split_and!.
  - dispatch He. by mrun.
  - by do 4 (etrans; [eassumption|]).
  - done.
  - lookup_up.
  - lookup_up.
  - lookup_up.
  - lookup_up.
  - lookup_up.
  - apply (lifted_mono h h1); [by do 3 (etrans; [eassumption|])|done].
  - apply (lifted_base h h1); [done|].
    apply (lifted_mono h1 h2); [by do 2 (etrans; [eassumption|])|done].
  - intros Hwf Ha Hb Hda Hdb.
    pose proof (prefix_length _ _ P1). pose proof (prefix_length _ _ P2).
    pose proof (prefix_length _ _ P3). pose proof (prefix_length _ _ P4).
    pose proof (lookup_lt_Some _ _ _ N1). pose proof (lookup_lt_Some _ _ _ N2).
    pose proof (lookup_lt_Some _ _ _ N3). pose proof (lookup_lt_Some _ _ _ N4).
    apply W5; [apply W4; [apply W3; [apply W2; [by apply W1| |]| |]|]| |];
      try lia.
    by apply (dvalid_mono h).
Qed.

(** The power rule: [da * b * (a ** (b - 1))]. *)
Lemma differentiate_Pow var e a b da db h :
  h !! e = Some (Operator Pow [a; b]) ->
  exists r t q s x one h',
    differentiate var e [da; db] h = Ok (DExpr r, h') /\
    h `prefix_of` h' /\
    h' !! r = Some (Operator Mul [t; q]) /\
    h' !! t = Some (Operator Mul [x; b]) /\
    h' !! q = Some (Operator Pow [a; s]) /\
    h' !! s = Some (Operator Sub [b; one]) /\
    h' !! one = Some (Terminal Number (VInt 1)) /\
    lifted h h' da x /\
    (wf_heap h -> a < length h -> b < length h -> dvalid h da -> wf_heap h').
Proof.
  intros He.
  destruct (dbinop_r_spec Mul da b h)
    as (t & x & h1 & E1 & P1 & L1 & N1 & X1 & W1).
  destruct (binop_l_int_spec Sub b 1 h1)
    as (s & one & h2 & E2 & P2 & L2 & N2 & T2 & W2).
  destruct (binop_l_ref_spec Pow a s h2)
    as (q & h3 & E3 & P3 & L3 & N3 & W3).
  destruct (binop_l_ref_spec Mul t q h3)
    as (r & h4 & E4 & P4 & L4 & N4 & W4).
  exists r, t, q, s, x, one, h4. split_and!.
  - dispatch He. by mrun.
  - by do 3 (etrans; [eassumption|]).
  - done.
  - lookup_up.
  - lookup_up.
  - lookup_up.
  - lookup_up.
  - apply (lifted_mono h h1); [by do 2 (etrans; [eassumption|])|done].
  - intros Hwf Ha Hb Hda.
    pose proof (prefix_length _ _ P1). pose proof (prefix_length _ _ P2).
    pose proof (prefix_length _ _ P3).
    pose proof (lookup_lt_Some _ _ _ N1). pose proof (lookup_lt_Some _ _ _ N2).
    pose proof (lookup_lt_Some _ _ _ N3).
    apply W4; [apply W3; [apply W2; [by apply W1|]| |]| |]; lia.
Qed.

(** ** What an expression contains *)

Lemma reach_prefix h h' a b : h `prefix_of` h' -> reach h a b -> reach h' a b.
Proof.
  intros Hp. induction 1 as [a|a e o b He Ho _ IH]; [constructor|].
  eapply reach_step; [|exact Ho|exact IH].
  eapply prefix_lookup_Some; eauto.
Qed.

Lemma contains_prefix h h' a c :
  h `prefix_of` h' -> contains h a c -> contains h' a c.
Proof.
  intros Hp (s & ops & Hr & Hs). exists s, ops. split.
  - by apply (reach_prefix h).
  - eapply prefix_lookup_Some; eauto.
Qed.

Lemma contains_here h a c ops :
  h !! a = Some (Operator c ops) -> contains h a c.
Proof. intros Ha. exists a, ops. split; [constructor|done]. Qed.

Lemma contains_operand h a e o c :
  h !! a = Some e -> o ∈ operands e -> contains h o c -> contains h a c.
Proof.
  intros Ha Ho (s & ops & Hr & Hs). exists s, ops. split; [|done].
  eapply reach_step; eauto.
Qed.

Lemma contains_inv h a c :
  contains h a c ->
  (exists ops, h !! a = Some (Operator c ops)) \/
  (exists e o, h !! a = Some e /\ o ∈ operands e /\ contains h o c).
Proof.
  intros (s & ops & Hr & Hs). destruct Hr as [a|a e o b He Ho Hr].
  - left. by exists ops.
  - right. exists e, o. split_and!; try done. by exists b, ops.
Qed.

Lemma operand_left c x y : x ∈ operands (Operator c [x; y]).
Proof. simpl. apply elem_of_cons. by left. Qed.

Lemma operand_right c x y : y ∈ operands (Operator c [x; y]).
Proof. simpl. apply elem_of_cons. right. apply elem_of_cons. by left. Qed.

Section DerivativeRule.

Variable var : string.
Variable h0 : heap.
Hypothesis wf0 : wf_heap h0.

(** [scope] holds of the nodes the run may come to. *)
Variable scope : addr -> Prop.
Hypothesis scope_closed :
  forall e node o,
    scope e -> h0 !! e = Some node -> o ∈ operands node -> scope o.

(** [P e r h]: what is to hold of the result [r] for the node [e] of [h0],
    in the arena [h] that [r] lives in. *)
Variable P : addr -> dval -> heap -> Prop.
Hypothesis P_mono :
  forall h h' e r, h `prefix_of` h' -> P e r h -> P e r h'.
Hypothesis P_step :
  forall e node args h r h',
    h0 `prefix_of` h -> wf_heap h -> h0 !! e = Some node ->
    Forall2 (fun o a => dvalid h a /\ P o a h) (operands node) args ->
    differentiate var e args h = Ok (r, h') ->
    h `prefix_of` h' ->
    P e r h'.

Local Abbreviation arena_ok := (arena_ok h0).
Local Abbreviation sub_raised := (sub_raised h0 scope).

Lemma differentiate_step e node args h :
  scope e -> arena_ok h -> h0 !! e = Some node ->
  Forall2 (fun o a => dvalid h a /\ P o a h) (operands node) args ->
  match differentiate var e args h with
  | Ok (r, h') => arena_ok h' /\ h `prefix_of` h' /\ dvalid h' r /\ P e r h'
  | Raise x => sub_raised x
  | OutOfFuel => False
  end.
Proof.
  intros Hscope [Hp Hwf] He Hargs.
  assert (Hh : h !! e = Some node) by (eapply prefix_lookup_Some; eauto).
  assert (Hok : forall r h',
            differentiate var e args h = Ok (r, h') ->
            h `prefix_of` h' -> wf_heap h' -> dvalid h' r ->
            arena_ok h' /\ h `prefix_of` h' /\ dvalid h' r /\ P e r h').
  { intros r h' Heq Hp' Hwf' Hr. split_and!; try done.
    - split; [by etrans|done].
    - eapply P_step; eauto. }
  pose proof (prefix_length _ _ Hp) as Hlen.
  destruct node as [[|] v|c ops].
  - rewrite (differentiate_Number var e v args h Hh).
    apply Hok; try done. by apply (differentiate_Number var e v).
  - rewrite (differentiate_Symbol var e v args h Hh).
    apply Hok; try done; [by apply (differentiate_Symbol var e v)|].
    by destruct (value_eq v var).
  - destruct (wf0 e _ He) as [Hlt Har]. simpl in Hlt, Har, Hargs.
    destruct ops as [|a [|b [|]]]; try done.
    apply Forall_cons in Hlt as [Ha Hlt]. apply Forall_cons in Hlt as [Hb _].
    pose proof (lookup_lt_Some _ _ _ He) as Hlte.
    apply Forall2_cons_inv_l in Hargs as (da & args1 & [Hda _] & Hargs & ->).
    apply Forall2_cons_inv_l in Hargs as (db & args2 & [Hdb _] & Hargs & ->).
    apply Forall2_nil_inv_l in Hargs as ->.
    destruct c.
    + rewrite (differentiate_Add var e _ da db h Hh).
      destruct da as [x|a'], db as [y|b'].
      * rewrite dadd_floats. apply Hok; try done.
        by rewrite (differentiate_Add var e _ _ _ h Hh).
      * destruct (dadd_expr_spec (DFloat x) (DExpr b') h)
          as (r & x' & y' & h' & Heq & Hp' & _ & Hn & _ & _ & Hwf');
          [right; by eexists|].
        rewrite Heq. apply Hok; try done.
        -- by rewrite (differentiate_Add var e _ _ _ h Hh).
        -- by apply Hwf'.
        -- by apply lookup_lt_Some in Hn.
      * destruct (dadd_expr_spec (DExpr a') (DFloat y) h)
          as (r & x' & y' & h' & Heq & Hp' & _ & Hn & _ & _ & Hwf');
          [left; by eexists|].
        rewrite Heq. apply Hok; try done.
        -- by rewrite (differentiate_Add var e _ _ _ h Hh).
        -- by apply Hwf'.
        -- by apply lookup_lt_Some in Hn.
      * destruct (dadd_expr_spec (DExpr a') (DExpr b') h)
          as (r & x' & y' & h' & Heq & Hp' & _ & Hn & _ & _ & Hwf');
          [left; by eexists|].
        rewrite Heq. apply Hok; try done.
        -- by rewrite (differentiate_Add var e _ _ _ h Hh).
        -- by apply Hwf'.
        -- by apply lookup_lt_Some in Hn.
    + rewrite (differentiate_Sub var e _ _ h Hh). split; [done|].
      by exists e, [a; b].
    + destruct (differentiate_Mul var e a b da db h Hh)
        as (r & t1 & t2 & x & y & h' & Heq & Hp' & Hn & _ & _ & _ & _ & Hwf').
      rewrite Heq. apply Hok; try done.
      * apply Hwf'; try done; lia.
      * by apply lookup_lt_Some in Hn.
    + destruct (differentiate_Div var e a b da db h Hh)
        as (r & n & p & t1 & t2 & x & y & two & h' & Heq & Hp' & Hn & Hrest).
      rewrite Heq. apply Hok; try done.
      * apply Hrest; try done; lia.
      * by apply lookup_lt_Some in Hn.
    + destruct (differentiate_Pow var e a b da db h Hh)
        as (r & t & q & s & x & one & h' & Heq & Hp' & Hn & Hrest).
      rewrite Heq. apply Hok; try done.
      * apply Hrest; try done; lia.
      * by apply lookup_lt_Some in Hn.
Qed.

(** Differentiation of a node of a well-formed arena ends: with a result
    that satisfies [P], or with the dispatch error. *)
Lemma derivative_rule root h :
  root < length h0 -> scope root -> arena_ok h ->
  exists n, forall k,
    match derivative (n + k) root var h with
    | Ok (r, h') => arena_ok h' /\ h `prefix_of` h' /\ dvalid h' r /\ P root r h'
    | Raise x => sub_raised x
    | OutOfFuel => False
    end.
Proof.
  intros Hroot Hscope Hok.
  destruct (postvisitor_rule (fun h : heap => h) (differentiate var) h0 wf0
              arena_ok (fun h h' : heap => h `prefix_of` h')
              ltac:(done) ltac:(intros; by etrans)
              ltac:(intros w e [Hp _] He; symmetry; by apply prefix_lookup_lt)
              scope scope_closed
              (fun e r h => dvalid h r /\ P e r h)
              sub_raised
              ltac:(intros w w' e r Hp [Hd HP]; split;
                    [by apply (dvalid_mono w)|by apply (P_mono w)])
              differentiate_step root h Hroot Hscope Hok) as [n Hn].
  exists n. intros k. specialize (Hn k). unfold derivative.
  by destruct (postvisitor _ _ (n + k) root h) as [[r h']|x|].
Qed.

End DerivativeRule.

(** ** Sharing *)

(** C1.  The visitor's run on [x * x], with the one [Symbol] instance as
    both operands: the first pop of the product finds [x] uncached twice and
    pushes it twice, and each pop of [x] calls the step function, so the
    step function is called on [x], on [x] again and then on the product --
    three calls for two node instances. *)
Theorem shared_operand_visited_twice (k : nat) :
  match x_times_x [] with
  | Ok (e, h) =>
      h = [Terminal Symbol (VStr "x"); Operator Mul [0; 0]] /\ e = 1 /\
      postvisitor fst counting_step (4 + k) e (h, 0) = Ok (tt, (h, 3)) /\
      map call_node (postvisitor_calls fst counting_step (4 + k) e (h, 0))
        = [0; 0; 1]
  | _ => False
  end.
Proof.
  assert (Hx : x_times_x [] =
            Ok (1, [Terminal Symbol (VStr "x"); Operator Mul [0; 0]]))
    by reflexivity.
  rewrite Hx. split; [done|]. split; [done|]. split.
  - rewrite postvisitor_more; [|by vm_compute]. by vm_compute.
  - unfold postvisitor_calls. rewrite calls_more; [|by vm_compute].
    by vm_compute.
Qed.

(** ** Terminals *)

Lemma derivative_leaf var e node h r h' k :
  h !! e = Some node -> operands node = [] ->
  differentiate var e [] h = Ok (r, h') ->
  derivative (S k) e var h = Ok (r, h').
Proof.
  intros He Hops Hd. unfold derivative, postvisitor. simpl.
  unfold visit. rewrite He, Hops. simpl. rewrite Hd. simpl.
  rewrite while_stack_nil. by rewrite lookup_insert_eq.
Qed.

(** C6.  [differentiate(number(v), var)] is the float [0.0] for every
    number [v], and [differentiate(symbol(s), var)] is [1.0] when [s] is
    [var] and [0.0] otherwise; one iteration of the visitor is enough, and
    nothing is constructed besides the terminal itself. *)
Theorem terminal_rules (v : pyval) (s var : string) (h : heap) (k : nat) :
  (is_number v = true ->
   (e <- Number_init (Val v) ;; derivative (S k) e var) h =
     Ok (DFloat 0, h ++ [Terminal Number v]))
  /\ (s = var ->
      (e <- Symbol_init (Val (VStr s)) ;; derivative (S k) e var) h =
        Ok (DFloat 1, h ++ [Terminal Symbol (VStr s)]))
  /\ (s <> var ->
      (e <- Symbol_init (Val (VStr s)) ;; derivative (S k) e var) h =
        Ok (DFloat 0, h ++ [Terminal Symbol (VStr s)])).
Proof.
  split_and!.
  - intros Hv. erewrite bind_ok by (by apply Number_init_ok).
    eapply derivative_leaf; [apply lookup_new|done|].
    eapply differentiate_Number, lookup_new.
  - intros ->. erewrite bind_ok by (by apply Symbol_init_ok).
    eapply derivative_leaf; [apply lookup_new|done|].
    erewrite differentiate_Symbol by apply lookup_new.
    simpl. by rewrite String.eqb_refl.
  - intros Hne. erewrite bind_ok by (by apply Symbol_init_ok).
    eapply derivative_leaf; [apply lookup_new|done|].
    erewrite differentiate_Symbol by apply lookup_new.
    simpl. by apply String.eqb_neq in Hne as ->.
Qed.

Lemma terminal_rules_witness :
  is_number (VInt 5) = true
  /\ (e <- Number_init (Val (VInt 5)) ;; derivative 1 e "x") [] =
       Ok (DFloat 0, [Terminal Number (VInt 5)])
  /\ (e <- Symbol_init (Val (VStr "x")) ;; derivative 1 e "x") [] =
       Ok (DFloat 1, [Terminal Symbol (VStr "x")])
  /\ (e <- Symbol_init (Val (VStr "y")) ;; derivative 1 e "x") [] =
       Ok (DFloat 0, [Terminal Symbol (VStr "y")]).
Proof.
  split; [reflexivity|]. split_and!.
  - exact (proj1 (terminal_rules (VInt 5) "x" "x" [] 0) eq_refl).
  - exact (proj1 (proj2 (terminal_rules (VInt 5) "x" "x" [] 0)) eq_refl).
  - apply (proj2 (proj2 (terminal_rules (VInt 5) "y" "x" [] 0))).
    discriminate.
Defined.

(** ** The product rule *)

(** C7.  On a [Mul] node with operands [a], [b] and operand results [da],
    [db] the rule returns a new [Add] node over two new [Mul] nodes, the
    first on [da] and [b], the second on [db] and [a]: the operands are
    the original expressions, and a float result enters as a new [Number].
    The derivative of [x * x] renders as "1.0 * x + 1.0 * x", given that
    the interpreter prints the float [1.0] as "1.0". *)
Theorem product_rule :
  (forall var e a b da db (h : heap),
     h !! e = Some (Operator Mul [a; b]) ->
     exists r t1 t2 x y h',
       differentiate var e [da; db] h = Ok (DExpr r, h') /\
       h `prefix_of` h' /\
       h' !! r = Some (Operator Add [t1; t2]) /\
       h' !! t1 = Some (Operator Mul [x; b]) /\
       h' !! t2 = Some (Operator Mul [y; a]) /\
       lifted h h' da x /\ lifted h h' db y)
  /\ (forall (float_str : float -> string) (k : nat),
        float_str 1%float = "1.0"%string ->
        exists r h',
          (e <- x_times_x ;; derivative (4 + k) e "x") [] = Ok (DExpr r, h') /\
          render float_str h' r = Some "1.0 * x + 1.0 * x"%string).
Proof.
  split.
  - intros var e a b da db h He.
    destruct (differentiate_Mul var e a b da db h He)
      as (r & t1 & t2 & x & y & h' & H1 & H2 & H3 & H4 & H5 & H6 & H7 & _).
    by exists r, t1, t2, x, y, h'.
  - intros float_str k Hone.
    erewrite bind_ok by reflexivity.
    unfold derivative. rewrite postvisitor_more; [|by vm_compute].
    eexists _, _. split; [by vm_compute|].
    unfold render. simpl. by rewrite Hone.
Qed.

Lemma product_rule_witness :
  let float_str := fun f : float =>
    if PrimFloat.eqb f 1 then "1.0"%string else "0.0"%string in
  [Terminal Symbol (VStr "x"); Operator Mul [0; 0]] !! 1
    = Some (Operator Mul [0; 0])
  /\ (exists r t1 t2 x y h',
        differentiate "x" 1 [DFloat 1; DExpr 0]
          [Terminal Symbol (VStr "x"); Operator Mul [0; 0]] = Ok (DExpr r, h') /\
        [Terminal Symbol (VStr "x"); Operator Mul [0; 0]] `prefix_of` h' /\
        h' !! r = Some (Operator Add [t1; t2]) /\
        h' !! t1 = Some (Operator Mul [x; 0]) /\
        h' !! t2 = Some (Operator Mul [y; 0]) /\
        lifted [Terminal Symbol (VStr "x"); Operator Mul [0; 0]] h'
          (DFloat 1) x /\
        lifted [Terminal Symbol (VStr "x"); Operator Mul [0; 0]] h'
          (DExpr 0) y)
  /\ float_str 1%float = "1.0"%string
  /\ (exists r h',
        (e <- x_times_x ;; derivative 4 e "x") [] = Ok (DExpr r, h') /\
        render float_str h' r = Some "1.0 * x + 1.0 * x"%string).
Proof.
  intros float_str. split; [reflexivity|]. split.
  - exact (proj1 product_rule "x" 1 0 0 (DFloat 1) (DExpr 0)
             [Terminal Symbol (VStr "x"); Operator Mul [0; 0]] eq_refl).
  - split; [reflexivity|].
    exact (proj2 product_rule float_str 0 eq_refl).
Defined.

(** ** Nodes without a rule *)

Lemma Forall2_elem_of_l {A B} (T : A -> B -> Prop) l k x :
  Forall2 T l k -> x ∈ l -> exists y, T x y.
Proof.
  intros HF Hx. apply list_elem_of_lookup in Hx as [i Hi].
  destruct (Forall2_lookup_l _ _ _ _ _ HF Hi) as (y & _ & Hy). by exists y.
Qed.

(** A result for a node of [h] means there is no [Sub] in or under it. *)
Lemma sub_free_step var (h0 : heap) e node args (h : heap) r h' :
  h0 `prefix_of` h -> wf_heap h -> h0 !! e = Some node ->
  Forall2 (fun o (a : dval) => dvalid h a /\ ~ contains h0 o Sub)
    (operands node) args ->
  differentiate var e args h = Ok (r, h') ->
  h `prefix_of` h' ->
  ~ contains h0 e Sub.
Proof.
  intros Hp _ He Hargs Hd _ Hc.
  apply contains_inv in Hc as [[ops Hs]|(e' & o & He' & Ho & Hc)].
  - assert (Hh : h !! e = Some (Operator Sub ops))
      by (eapply prefix_lookup_Some; eauto).
    by rewrite (differentiate_Sub var e ops args h Hh) in Hd.
  - replace e' with node in Ho by congruence.
    destruct (Forall2_elem_of_l _ _ _ _ Hargs Ho) as (a & _ & Hfree).
    by apply Hfree.
Qed.

Lemma derivative_raises_on_Sub var (h : heap) root :
  wf_heap h -> root < length h -> contains h root Sub ->
  exists n, forall k,
    derivative (n + k) root var h =
      Raise (NotImplementedError "Cannot differentiate Sub").
Proof.
  intros Hwf Hroot Hsub.
  destruct (derivative_rule var h Hwf (fun _ => True) ltac:(done)
              (fun e _ _ => ~ contains h e Sub)
              ltac:(done) (sub_free_step var h) root h Hroot I)
    as [n Hn]; [by split|].
  exists n. intros k. specialize (Hn k).
  destruct (derivative (n + k) root var h) as [[r h']|x|]; [| |done].
  - by destruct Hn as (_ & _ & _ & Hfree).
  - by destruct Hn as [-> _].
Qed.

(** C8.  Differentiating an expression that contains a [Sub] node ends
    with the NotImplementedError that names [Sub], whatever else the
    expression contains; so does differentiating
    [sub(symbol("x"), number(1))]. *)
Theorem sub_is_not_differentiable :
  (forall var (h : heap) root,
     wf_heap h -> root < length h -> contains h root Sub ->
     exists n, forall k,
       derivative (n + k) root var h =
         Raise (NotImplementedError "Cannot differentiate Sub"))
  /\ (forall k,
        (e <- x_minus_one ;; derivative (4 + k) e "x") [] =
          Raise (NotImplementedError "Cannot differentiate Sub")).
Proof.
  split.
  - apply derivative_raises_on_Sub.
  - intros k. erewrite bind_ok by reflexivity.
    unfold derivative. rewrite postvisitor_more; by vm_compute.
Qed.

Lemma sub_is_not_differentiable_witness :
  let h := [Terminal Symbol (VStr "x"); Terminal Symbol (VStr "y");
            Operator Sub [0; 1]; Operator Mul [2; 0]] in
  wf_heap h /\ 3 < length h /\ contains h 3 Sub /\
  exists n, forall k,
    derivative (n + k) 3 "x" h =
      Raise (NotImplementedError "Cannot differentiate Sub").
Proof.
  intros h.
  assert (Hwf : wf_heap h) by (apply wf_heap_check; reflexivity).
  assert (Hlen : 3 < length h) by (simpl; lia).
  assert (Hsub : contains h 3 Sub).
  { eapply (contains_operand h 3 _ 2); [reflexivity|apply operand_left|].
    by eapply contains_here. }
  split_and!; try done.
  exact (proj1 sub_is_not_differentiable "x" h 3 Hwf Hlen Hsub).
Defined.

(** ** What kind of value a derivative is *)

Lemma derivative_rule_ok var (h0 : heap) (P : addr -> dval -> heap -> Prop)
    root h n r h' :
  wf_heap h0 ->
  (forall h h' e r, h `prefix_of` h' -> P e r h -> P e r h') ->
  (forall e node args h r h',
     h0 `prefix_of` h -> wf_heap h -> h0 !! e = Some node ->
     Forall2 (fun o a => dvalid h a /\ P o a h) (operands node) args ->
     differentiate var e args h = Ok (r, h') ->
     h `prefix_of` h' -> P e r h') ->
  root < length h0 -> arena_ok h0 h ->
  derivative n root var h = Ok (r, h') ->
  arena_ok h0 h' /\ h `prefix_of` h' /\ dvalid h' r /\ P root r h'.
Proof.
  intros Hwf Hmono Hstep Hroot Hok Hd.
  destruct (derivative_rule var h0 Hwf (fun _ => True) ltac:(done)
              P Hmono Hstep root h Hroot I Hok) as [m Hm].
  specialize (Hm n). replace (m + n) with (n + m) in Hm by lia.
  unfold derivative in *. rewrite postvisitor_more in Hm by (by rewrite Hd).
  by rewrite Hd in Hm.
Qed.

Lemma sum_only_operand h e node o :
  h !! e = Some node -> o ∈ operands node -> sum_only h e -> sum_only h o.
Proof.
  intros He Ho Hs c Hc Hcon. apply (Hs c Hc).
  eapply contains_operand; eauto.
Qed.

Lemma sum_only_terminal h e tc v :
  h !! e = Some (Terminal tc v) -> sum_only h e.
Proof.
  intros He c _ Hcon.
  apply contains_inv in Hcon as [[ops Hs]|(e' & o & He' & Ho & _)].
  - congruence.
  - replace e' with (Terminal tc v) in Ho by congruence.
    simpl in Ho. set_solver.
Qed.

Lemma sum_only_Add h e a b :
  h !! e = Some (Operator Add [a; b]) ->
  sum_only h a -> sum_only h b -> sum_only h e.
Proof.
  intros He Ha Hb c Hc Hcon.
  apply contains_inv in Hcon as [[ops Hs]|(e' & o & He' & Ho & Hcon)].
  - congruence.
  - replace e' with (Operator Add [a; b]) in Ho by congruence.
    simpl in Ho. apply elem_of_cons in Ho as [->|Ho].
    + by apply (Ha c).
    + apply list_elem_of_singleton in Ho as ->. by apply (Hb c).
Qed.

Lemma result_kind_step var (h0 : heap) :
  wf_heap h0 ->
  forall e node args (h : heap) r h',
    h0 `prefix_of` h -> wf_heap h -> h0 !! e = Some node ->
    Forall2 (fun o a => dvalid h a /\ (is_float a <-> sum_only h0 o))
      (operands node) args ->
    differentiate var e args h = Ok (r, h') ->
    h `prefix_of` h' ->
    (is_float r <-> sum_only h0 e).
Proof.
  intros Hwf0 e node args h r h' Hp _ He Hargs Hd _.
  assert (Hh : h !! e = Some node) by (eapply prefix_lookup_Some; eauto).
  assert (Hnot : forall c ops a,
            node = Operator c ops -> c <> Add -> r = DExpr a ->
            is_float r <-> sum_only h0 e).
  { intros c ops a -> Hc ->. split; [by intros [f Hf]|].
    intros Hs. destruct (Hs c Hc). by eapply contains_here. }
  destruct node as [[|] v|c ops].
  - rewrite (differentiate_Number var e v args h Hh) in Hd.
    injection Hd as <- <-. split; [|by eexists].
    intros _. by eapply sum_only_terminal.
  - rewrite (differentiate_Symbol var e v args h Hh) in Hd.
    injection Hd as <- <-. split.
    + intros _. by eapply sum_only_terminal.
    + intros _. destruct (value_eq v var); by eexists.
  - destruct (Hwf0 e _ He) as [_ Har]. simpl in Har, Hargs.
    destruct ops as [|a [|b [|]]]; try done.
    apply Forall2_cons_inv_l in Hargs as (da & args1 & [_ Ha] & Hargs & ->).
    apply Forall2_cons_inv_l in Hargs as (db & args2 & [_ Hb] & Hargs & ->).
    apply Forall2_nil_inv_l in Hargs as ->.
    destruct c.
    + rewrite (differentiate_Add var e _ da db h Hh) in Hd.
      assert (Hexpr : forall a', da = DExpr a' \/ db = DExpr a' ->
                is_float r <-> sum_only h0 e).
      { intros a' Hor.
        destruct (dadd_expr_spec da db h) as (r' & x & y & h'' & Heq & _).
        { destruct Hor as [->| ->]; [left|right]; by eexists. }
        rewrite Heq in Hd. injection Hd as <- <-.
        split; [by intros [f Hf]|]. intros Hs.
        destruct Hor as [->| ->].
        - assert (Hsa : sum_only h0 a)
            by (eapply sum_only_operand; eauto; apply operand_left).
          apply Ha in Hsa as [f Hf]. discriminate.
        - assert (Hsb : sum_only h0 b)
            by (eapply sum_only_operand; eauto; apply operand_right).
          apply Hb in Hsb as [f Hf]. discriminate. }
      destruct da as [x|a']; [|by apply (Hexpr a'); left].
      destruct db as [y|b']; [|by apply (Hexpr b'); right].
      rewrite dadd_floats in Hd. injection Hd as <- <-.
      split; [|by eexists]. intros _.
      eapply sum_only_Add; eauto.
      * apply Ha. by eexists.
      * apply Hb. by eexists.
    + by rewrite (differentiate_Sub var e _ _ h Hh) in Hd.
    + destruct (differentiate_Mul var e a b da db h Hh)
        as (r' & t1 & t2 & x & y & h'' & Heq & _).
      rewrite Heq in Hd. injection Hd as <- <-. by eapply Hnot.
    + destruct (differentiate_Div var e a b da db h Hh)
        as (r' & n & p & t1 & t2 & x & y & two & h'' & Heq & _).
      rewrite Heq in Hd. injection Hd as <- <-. by eapply Hnot.
    + destruct (differentiate_Pow var e a b da db h Hh)
        as (r' & t & q & s & x & one & h'' & Heq & _).
      rewrite Heq in Hd. injection Hd as <- <-. by eapply Hnot.
Qed.

(** C9, as the specification states it, fails: the derivative of the sum
    [x + y] is the plain float [1.0] although the input is an operator
    node, and the derivative of [x + x] is the plain float [2.0]. *)
Lemma sum_differentiates_to_float :
  (e <- x_plus_y ;; derivative 4 e "x") [] =
    Ok (DFloat 1, [Terminal Symbol (VStr "x"); Terminal Symbol (VStr "y");
                   Operator Add [0; 1]])
  /\ (e <- x_plus_x ;; derivative 4 e "x") [] =
       Ok (DFloat 2, [Terminal Symbol (VStr "x"); Operator Add [0; 0]]).
Proof. split; by vm_compute. Qed.

(** C9, amended.  When differentiation succeeds, the result is a plain
    float exactly when every operator in the input is an [Add] (a bare
    terminal included), and a node of the resulting arena exactly when the
    input contains some other operator; for a bare [Number] or [Symbol] the
    float is [0.0] or [1.0]. *)
Theorem derivative_result_kind var (h : heap) root n d h' :
  wf_heap h -> root < length h ->
  derivative n root var h = Ok (d, h') ->
  (is_float d <-> sum_only h root)
  /\ ((exists a, d = DExpr a /\ a < length h') <-> ~ sum_only h root)
  /\ (forall tc v, h !! root = Some (Terminal tc v) ->
        d = DFloat 0 \/ d = DFloat 1).
Proof.
  intros Hwf Hroot Hd.
  destruct (derivative_rule_ok var h
              (fun e r _ => is_float r <-> sum_only h e) root h n d h' Hwf
              ltac:(done) (result_kind_step var h Hwf) Hroot
              ltac:(by split) Hd) as (_ & _ & Hvalid & Hkind).
  split_and!; [done| |].
  - split.
    + intros (a & -> & _) Hs. apply Hkind in Hs as [f Hf]. discriminate.
    + intros Hns. destruct d as [f|a]; [|by exists a].
      destruct Hns. apply Hkind. by eexists.
  - intros tc v Hterm. destruct n as [|n]; [done|].
    destruct tc.
    + rewrite (derivative_leaf var root _ h (DFloat 0) h n Hterm eq_refl) in Hd.
      * injection Hd as <- _. by left.
      * by eapply differentiate_Number.
    + rewrite (derivative_leaf var root _ h _ h n Hterm eq_refl
                 (differentiate_Symbol var root v [] h Hterm)) in Hd.
      injection Hd as <- _. destruct (value_eq v var); [by right|by left].
Qed.

Lemma derivative_result_kind_witness :
  let h := [Terminal Symbol (VStr "x"); Terminal Symbol (VStr "y");
            Operator Add [0; 1]] in
  wf_heap h /\ 2 < length h /\
  derivative 4 2 "x" h = Ok (DFloat 1, h) /\
  (is_float (DFloat 1) <-> sum_only h 2).
Proof.
  intros h.
  assert (Hwf : wf_heap h) by (apply wf_heap_check; reflexivity).
  assert (Hlen : 2 < length h) by (simpl; lia).
  assert (Hd : derivative 4 2 "x" h = Ok (DFloat 1, h)) by (by vm_compute).
  split_and!; try done.
  exact (proj1 (derivative_result_kind "x" h 2 4 (DFloat 1) h Hwf Hlen Hd)).
Defined.

(** ** Differentiating a derivative *)

Lemma has_quotient_or_power_inv h e :
  has_quotient_or_power h e ->
  (exists ops, h !! e = Some (Operator Div ops)) \/
  (exists ops, h !! e = Some (Operator Pow ops)) \/
  (exists node o, h !! e = Some node /\ o ∈ operands node /\
                  has_quotient_or_power h o).
Proof.
  intros [Hc|Hc]; apply contains_inv in Hc as [Hh|(node & o & He & Ho & Hc)].
  - by left.
  - right; right. exists node, o. split_and!; try done. by left.
  - right; by left.
  - right; right. exists node, o. split_and!; try done. by right.
Qed.

(** The derivative of a [Div] or [Pow] node contains a [Sub]. *)
Lemma differentiate_Div_Sub var e a b da db h :
  h !! e = Some (Operator Div [a; b]) ->
  exists r h',
    differentiate var e [da; db] h = Ok (DExpr r, h') /\ contains h' r Sub.
Proof.
  intros He.
  destruct (differentiate_Div var e a b da db h He)
    as (r & n & p & t1 & t2 & x & y & two & h' & Heq & _ & Hr & Hn & _).
  exists r, h'. split; [done|].
  eapply contains_operand; [exact Hr|apply operand_left|].
  by eapply contains_here.
Qed.

Lemma differentiate_Pow_Sub var e a b da db h :
  h !! e = Some (Operator Pow [a; b]) ->
  exists r h',
    differentiate var e [da; db] h = Ok (DExpr r, h') /\ contains h' r Sub.
Proof.
  intros He.
  destruct (differentiate_Pow var e a b da db h He)
    as (r & t & q & s & x & one & h' & Heq & _ & Hr & _ & Hq & Hs & _).
  exists r, h'. split; [done|].
  eapply contains_operand; [exact Hr|apply operand_right|].
  eapply contains_operand; [exact Hq|apply operand_right|].
  by eapply contains_here.
Qed.

Lemma sub_in_derivative_step var (h0 : heap) :
  wf_heap h0 ->
  forall e node args (h : heap) r h',
    h0 `prefix_of` h -> wf_heap h -> h0 !! e = Some node ->
    Forall2 (fun o a => dvalid h a /\
               (has_quotient_or_power h0 o ->
                exists a', a = DExpr a' /\ contains h a' Sub))
      (operands node) args ->
    differentiate var e args h = Ok (r, h') ->
    h `prefix_of` h' ->
    has_quotient_or_power h0 e ->
    exists a', r = DExpr a' /\ contains h' a' Sub.
Proof.
  intros Hwf0 e node args h r h' Hp _ He Hargs Hd Hp' Hqp.
  assert (Hh : h !! e = Some node) by (eapply prefix_lookup_Some; eauto).
  destruct node as [tc v|c ops].
  { apply has_quotient_or_power_inv in Hqp
      as [[ops Hs]|[[ops Hs]|(node & o & He' & Ho & _)]]; try congruence.
    replace node with (Terminal tc v) in Ho by congruence.
    simpl in Ho. by apply elem_of_nil in Ho. }
  destruct (Hwf0 e _ He) as [_ Har]. simpl in Har, Hargs.
  destruct ops as [|a [|b [|]]]; try done.
  apply Forall2_cons_inv_l in Hargs as (da & args1 & [_ Ha] & Hargs & ->).
  apply Forall2_cons_inv_l in Hargs as (db & args2 & [_ Hb] & Hargs & ->).
  apply Forall2_nil_inv_l in Hargs as ->.
  (* below a node that is neither Div nor Pow, one operand has one *)
  assert (Hbelow : c <> Div -> c <> Pow ->
            (exists a', da = DExpr a' /\ contains h a' Sub) \/
            (exists b', db = DExpr b' /\ contains h b' Sub)).
  { intros HnD HnP.
    apply has_quotient_or_power_inv in Hqp
      as [[ops Hs]|[[ops Hs]|(node & o & He' & Ho & Hqp)]]; try congruence.
    replace node with (Operator c [a; b]) in Ho by congruence.
    simpl in Ho. apply elem_of_cons in Ho as [->|Ho]; [left; by apply Ha|].
    apply list_elem_of_singleton in Ho as ->. right; by apply Hb. }
  destruct c.
  - rewrite (differentiate_Add var e _ da db h Hh) in Hd.
    destruct Hbelow as [(a' & -> & Hsub)|(b' & -> & Hsub)]; try done.
    + destruct (dadd_expr_spec (DExpr a') db h)
        as (r' & x & y & h'' & Heq & _ & _ & Hr & Hx & _); [left; by eexists|].
      rewrite Heq in Hd. injection Hd as <- <-. exists r'. split; [done|].
      simpl in Hx. subst x.
      eapply contains_operand; [exact Hr|apply operand_left|].
      by apply (contains_prefix h).
    + destruct (dadd_expr_spec da (DExpr b') h)
        as (r' & x & y & h'' & Heq & _ & _ & Hr & _ & Hy & _);
        [right; by eexists|].
      rewrite Heq in Hd. injection Hd as <- <-. exists r'. split; [done|].
      simpl in Hy. subst y.
      eapply contains_operand; [exact Hr|apply operand_right|].
      by apply (contains_prefix h).
  - by rewrite (differentiate_Sub var e _ _ h Hh) in Hd.
  - destruct (differentiate_Mul var e a b da db h Hh)
      as (r' & t1 & t2 & x & y & h'' & Heq & _ & Hr & Ht1 & Ht2 & Hx & Hy & _).
    rewrite Heq in Hd. injection Hd as <- <-. exists r'. split; [done|].
    destruct Hbelow as [(a' & -> & Hsub)|(b' & -> & Hsub)]; try done.
    + simpl in Hx. subst x.
      eapply contains_operand; [exact Hr|apply operand_left|].
      eapply contains_operand; [exact Ht1|apply operand_left|].
      by apply (contains_prefix h).
    + simpl in Hy. subst y.
      eapply contains_operand; [exact Hr|apply operand_right|].
      eapply contains_operand; [exact Ht2|apply operand_left|].
      by apply (contains_prefix h).
  - destruct (differentiate_Div_Sub var e a b da db h Hh)
      as (r' & h'' & Heq & Hsub).
    rewrite Heq in Hd. injection Hd as <- <-. by exists r'.
  - destruct (differentiate_Pow_Sub var e a b da db h Hh)
      as (r' & h'' & Heq & Hsub).
    rewrite Heq in Hd. injection Hd as <- <-. by exists r'.
Qed.

(** C10.  The rule for [Div] and the rule for [Pow] each return an
    expression that contains a [Sub] node.  So when an expression that
    contains a [Div] or a [Pow] has been differentiated, the derivative is
    an expression that contains a [Sub], and differentiating it again, with
    respect to any variable, ends with the NotImplementedError for [Sub]. *)
Theorem second_derivative_fails :
  (forall var e c a b da db (h : heap),
     c = Div \/ c = Pow ->
     h !! e = Some (Operator c [a; b]) ->
     exists r h',
       differentiate var e [da; db] h = Ok (DExpr r, h') /\
       contains h' r Sub)
  /\ (forall var var' (h : heap) root n d h',
        wf_heap h -> root < length h ->
        contains h root Div \/ contains h root Pow ->
        derivative n root var h = Ok (d, h') ->
        exists a,
          d = DExpr a /\ contains h' a Sub /\
          exists m, forall k,
            derivative (m + k) a var' h' =
              Raise (NotImplementedError "Cannot differentiate Sub")).
Proof.
  split.
  - intros var e c a b da db h [-> | ->] He.
    + by apply (differentiate_Div_Sub var e a b).
    + by apply (differentiate_Pow_Sub var e a b).
  - intros var var' h root n d h' Hwf Hroot Hqp Hd.
    destruct (derivative_rule_ok var h
                (fun e r h1 => has_quotient_or_power h e ->
                               exists a', r = DExpr a' /\ contains h1 a' Sub)
                root h n d h' Hwf) as ([_ Hwf'] & _ & Hvalid & Hsub);
      try done.
    + intros h1 h2 e r Hp Hr Hc. destruct (Hr Hc) as (a' & -> & Hs).
      exists a'. split; [done|]. by apply (contains_prefix h1).
    + apply (sub_in_derivative_step var h Hwf).
    + destruct (Hsub Hqp) as (a & -> & Hs). exists a. split_and!; try done.
      by apply derivative_raises_on_Sub.
Qed.

(** The second part at work on [x ** 2]. *)
Lemma second_derivative_fails_witness :
  let h := [Terminal Symbol (VStr "x"); Terminal Number (VInt 2);
            Operator Pow [0; 1]] in
  wf_heap h /\ 2 < length h /\
  (contains h 2 Div \/ contains h 2 Pow) /\
  exists d h',
    derivative 4 2 "x" h = Ok (d, h') /\
    exists a,
      d = DExpr a /\ contains h' a Sub /\
      exists m, forall k,
        derivative (m + k) a "x" h' =
          Raise (NotImplementedError "Cannot differentiate Sub").
Proof.
  intros h.
  assert (Hwf : wf_heap h) by (apply wf_heap_check; reflexivity).
  assert (Hlen : 2 < length h) by (simpl; lia).
  assert (Hpow : contains h 2 Div \/ contains h 2 Pow)
    by (right; by eapply contains_here).
  split_and!; try done.
  eexists _, _. split; [by vm_compute|].
  by eapply (proj2 second_derivative_fails "x" "x" h 2 4).
Defined.

(** ** Post-order *)

Section Postorder.

Context {W R : Type}.
Variable heap_of : W -> heap.
Variable fn : addr -> list R -> W -> outcome (R * W).

Local Abbreviation call_ok := (@call_ok W R heap_of).
Local Abbreviation postorder := (@postorder W R heap_of).

Lemma produced_snoc (log : list (@call W R)) c a :
  produced (log ++ [c]) a =
    if decide (call_node c = a) then call_result c else produced log a.
Proof.
  unfold produced. rewrite filter_app, filter_cons, filter_nil.
  destruct (decide (call_node c = a)) as [Heq|Hne].
  - by rewrite last_snoc.
  - by rewrite app_nil_r.
Qed.

Lemma postorder_nil : postorder [].
Proof. intros l1 c l2 Hl. by destruct l1. Qed.

Lemma postorder_snoc (log : list (@call W R)) c :
  postorder log -> call_ok log c -> postorder (log ++ [c]).
Proof.
  intros Hlog Hc l1 c' l2 Hl.
  destruct l2 as [|x l2 _] using rev_ind.
  - apply app_inj_tail in Hl as [<- <-]. done.
  - change (l1 ++ c' :: l2 ++ [x]) with (l1 ++ (c' :: l2) ++ [x]) in Hl.
    rewrite app_assoc in Hl. apply app_inj_tail in Hl as [-> _].
    by apply (Hlog l1 c' l2).
Qed.

Lemma calls_postorder : forall fuel stack visited w pre,
  (forall a, visited !! a = produced pre a) ->
  postorder pre ->
  postorder (pre ++ calls heap_of fn fuel stack visited w).
Proof.
  induction fuel as [|fuel IH]; intros stack visited w pre Hcache Hpre.
  { destruct stack; simpl; by rewrite app_nil_r. }
  destruct stack as [|e stack]; simpl; [by rewrite app_nil_r|].
  unfold visit.
  destruct (heap_of w !! e) as [node|] eqn:He; simpl;
    [|by rewrite app_nil_r].
  destruct (filter _ (operands node)) as [|u us]; simpl; [|by apply IH].
  destruct (mapM _ (operands node)) as [args|] eqn:Hargs; simpl;
    [|by rewrite app_nil_r].
  apply mapM_Some in Hargs.
  assert (Hok : forall res, call_ok pre (Call e w args res)).
  { intros res. exists node. split; [done|]. simpl.
    eapply Forall2_impl; [exact Hargs|]. intros o a Ho. simpl in Ho.
    by rewrite <- Hcache. }
  destruct (fn e args w) as [[r w']|x|]; simpl.
  - change (pre ++ Call e w args (Some r) ::
              calls heap_of fn fuel stack (<[e:=r]> visited) w')
      with (pre ++ [Call e w args (Some r)] ++
              calls heap_of fn fuel stack (<[e:=r]> visited) w').
    rewrite app_assoc. apply IH.
    + intros a. rewrite produced_snoc. simpl.
      destruct (decide (e = a)) as [->|Hne].
      * by rewrite lookup_insert_eq.
      * by rewrite lookup_insert_ne.
    + by apply postorder_snoc.
  - by apply postorder_snoc.
  - by apply postorder_snoc.
Qed.

(** C2.  Whenever the visitor calls the step function on a node, every
    operand of the node has a result produced by an earlier call of the step
    function, and the arguments of the call are these results -- for each
    operand the latest one, which is the cached one -- in the order of the
    operands.  This holds of every call of every run, also of a call that
    raises and of a run that is cut short. *)
Theorem postvisitor_postorder fuel root w l1 c l2 :
  postvisitor_calls heap_of fn fuel root w = l1 ++ c :: l2 ->
  exists node,
    heap_of (call_world c) !! call_node c = Some node /\
    Forall2 (fun o a => produced l1 o = Some a)
      (operands node) (call_args c).
Proof.
  intros Hlog.
  apply (calls_postorder fuel [root] ∅ w [] ltac:(done) postorder_nil l1 c l2).
  exact Hlog.
Qed.

End Postorder.

Lemma postvisitor_postorder_witness :
  let h := [Terminal Symbol (VStr "x"); Operator Mul [0; 0]] in
  let c1 := Call 0 (h, 0) [] (Some tt) in
  let c2 := Call 0 (h, 1) [] (Some tt) in
  let c3 := Call 1 (h, 2) [tt; tt] (Some tt) in
  postvisitor_calls fst counting_step 4 1 (h, 0) = [c1; c2] ++ c3 :: []
  /\ exists node,
       fst (call_world c3) !! call_node c3 = Some node /\
       Forall2 (fun o a => produced [c1; c2] o = Some a)
         (operands node) (call_args c3).
Proof.
  intros h c1 c2 c3.
  assert (Hlog : postvisitor_calls fst counting_step 4 1 (h, 0)
                 = [c1; c2] ++ c3 :: []) by (by vm_compute).
  split; [exact Hlog|].
  exact (postvisitor_postorder fst counting_step 4 1 (h, 0) [c1; c2] c3 []
           Hlog).
Defined.

(** ** Termination and the value of a reduction *)

Lemma reach_operand h a e node o :
  reach h a e -> h !! e = Some node -> o ∈ operands node -> reach h a o.
Proof.
  induction 1 as [a|a e0 o0 b He0 Ho0 _ IH]; intros He Ho.
  - eapply reach_step; [exact He|exact Ho|constructor].
  - eapply reach_step; [exact He0|exact Ho0|]. by apply IH.
Qed.

(** X1.  Over a well-formed arena a step function that never raises and
    leaves the arena alone is called finitely often: the visitor returns
    the cached result of the root. *)
Theorem postvisitor_terminates {W R : Type} (heap_of : W -> heap)
    (fn : addr -> list R -> W -> outcome (R * W)) (h : heap) root w :
  wf_heap h ->
  (forall e args w, exists r w',
     fn e args w = Ok (r, w') /\ heap_of w' = heap_of w) ->
  heap_of w = h -> root < length h ->
  exists n, forall k, exists r w',
    postvisitor heap_of fn (n + k) root w = Ok (r, w') /\ heap_of w' = h.
Proof.
  intros Hwf Htotal Hw Hroot.
  destruct (postvisitor_rule heap_of fn h Hwf
              (fun w => heap_of w = h) (fun _ _ => True)
              ltac:(done) ltac:(done)
              ltac:(by intros w' e ->)
              (fun _ => True) ltac:(done)
              (fun _ _ _ => True) (fun _ => False) ltac:(done))
    with (root := root) (w := w) as [n Hn]; try done.
  - intros e node args w0 _ Hw0 _ _.
    destruct (Htotal e args w0) as (r & w' & -> & Hh).
    split_and!; [congruence|done|done].
  - exists n. intros k. specialize (Hn k).
    destruct (postvisitor heap_of fn (n + k) root w) as [[r w']|x|]; try done.
    exists r, w'. by destruct Hn as (Hh & _).
Qed.

Lemma postvisitor_terminates_witness :
  let h := [Terminal Symbol (VStr "x"); Operator Mul [0; 0]] in
  wf_heap h /\ 1 < length h /\
  exists n, forall k, exists r w',
    postvisitor fst counting_step (n + k) 1 (h, 0) = Ok (r, w') /\ fst w' = h.
Proof.
  intros h.
  assert (Hwf : wf_heap h) by (apply wf_heap_check; reflexivity).
  assert (Hlen : 1 < length h) by (simpl; lia).
  split_and!; try done.
  apply (postvisitor_terminates fst counting_step h 1 (h, 0) Hwf); try done.
  intros e args w. by eexists _, _.
Defined.

(** X2.  For a pure step function the visitor returns the value of the
    root, that is what the recursive reduction returns; that shared nodes
    are reduced more than once does not show in the result. *)
Theorem postvisitor_reduces {R : Type} (f : addr -> list R -> R)
    (h : heap) root :
  wf_heap h -> root < length h ->
  exists n, forall k, exists r,
    postvisitor (fun h : heap => h) (pure f) (n + k) root h = Ok (r, h) /\
    reduces h f root r.
Proof.
  intros Hwf Hroot.
  destruct (postvisitor_rule (fun h : heap => h) (pure f) h Hwf
              (fun w => w = h) (fun _ _ => True)
              ltac:(done) ltac:(done)
              ltac:(by intros w' e ->)
              (fun _ => True) ltac:(done)
              (fun e r _ => reduces h f e r) (fun _ => False) ltac:(done))
    with (root := root) (w := h) as [n Hn]; try done.
  - intros e node args w0 _ -> He Hargs. unfold pure. split_and!; try done.
    by econstructor.
  - exists n. intros k. specialize (Hn k).
    destruct (postvisitor _ (pure f) (n + k) root h) as [[r w']|x|]; try done.
    destruct Hn as (-> & _ & Hr). by exists r.
Qed.

Lemma postvisitor_reduces_witness :
  let h := [Terminal Symbol (VStr "x"); Operator Mul [0; 0]] in
  let size := fun (e : addr) (args : list nat) => S (list_sum args) in
  wf_heap h /\ 1 < length h /\
  exists n, forall k, exists r,
    postvisitor (fun h : heap => h) (pure size) (n + k) 1 h = Ok (r, h) /\
    reduces h size 1 r.
Proof.
  intros h size.
  assert (Hwf : wf_heap h) by (apply wf_heap_check; reflexivity).
  assert (Hlen : 1 < length h) by (simpl; lia).
  split_and!; try done.
  exact (postvisitor_reduces size h 1 Hwf Hlen).
Defined.

(** X3.  Differentiation of a well-formed expression without a [Sub] ends
    with a result, in a well-formed arena that extends the given one. *)
Theorem derivative_total var (h : heap) root :
  wf_heap h -> root < length h -> ~ contains h root Sub ->
  exists n, forall k, exists d h',
    derivative (n + k) root var h = Ok (d, h') /\
    h `prefix_of` h' /\ wf_heap h' /\ dvalid h' d.
Proof.
  intros Hwf Hroot Hfree.
  destruct (derivative_rule var h Hwf (reach h root)
              ltac:(intros e node o; apply reach_operand)
              (fun _ _ _ => True) ltac:(done) ltac:(done)
              root h Hroot ltac:(constructor))
    as [n Hn]; [by split|].
  exists n. intros k. specialize (Hn k).
  destruct (derivative (n + k) root var h) as [[d h']|x|]; [| |done].
  - exists d, h'. by destruct Hn as ([_ Hwf'] & Hp & Hd & _).
  - destruct Hn as (_ & e & ops & Hreach & Hsub).
    destruct Hfree. by exists e, ops.
Qed.

Lemma derivative_total_witness :
  let h := [Terminal Symbol (VStr "x"); Terminal Number (VInt 2);
            Operator Pow [0; 1]] in
  wf_heap h /\ 2 < length h /\ ~ contains h 2 Sub /\
  exists n, forall k, exists d h',
    derivative (n + k) 2 "x" h = Ok (d, h') /\
    h `prefix_of` h' /\ wf_heap h' /\ dvalid h' d.
Proof.
  intros h.
  assert (Hwf : wf_heap h) by (apply wf_heap_check; reflexivity).
  assert (Hlen : 2 < length h) by (simpl; lia).
  assert (Hfree : ~ contains h 2 Sub).
  { intros Hc.
    apply contains_inv in Hc as [[ops Hs]|(e & o & He & Ho & Hc)];
      [discriminate|].
    injection He as <-. simpl in Ho.
    apply elem_of_cons in Ho as [->|Ho].
    - apply contains_inv in Hc as [[ops Hs]|(e & o & He & Ho & _)];
        [discriminate|].
      injection He as <-. by apply elem_of_nil in Ho.
    - apply list_elem_of_singleton in Ho as ->.
      apply contains_inv in Hc as [[ops Hs]|(e & o & He & Ho & _)];
        [discriminate|].
      injection He as <-. by apply elem_of_nil in Ho. }
  split_and!; try done.
  exact (derivative_total "x" h 2 Hwf Hlen Hfree).
Defined.

(** ** Construction keeps the arena well formed *)

Lemma new_wf e (h : heap) :
  wf_heap h -> wf_node (length h) e ->
  wf_heap (h ++ [e]) /\ h `prefix_of` h ++ [e] /\ length h < length (h ++ [e]).
Proof.
  intros Hwf He. split_and!.
  - by apply wf_heap_snoc.
  - by apply prefix_app_r.
  - rewrite length_app. simpl. lia.
Qed.

(** X4.  The constructors and the arithmetic of expressions keep the arena
    well formed: a new node has two operands or none, and its operands lie
    below it, so the structure stays acyclic; the existing nodes stay as
    they are, and the result is a node of the new arena. *)
Theorem construction_keeps_wf (h : heap) :
  wf_heap h ->
  (forall value a h',
     Number_init value h = Ok (a, h') ->
     wf_heap h' /\ h `prefix_of` h' /\ a < length h')
  /\ (forall value a h',
        Symbol_init value h = Ok (a, h') ->
        wf_heap h' /\ h `prefix_of` h' /\ a < length h')
  /\ (forall c l r a h',
        l < length h -> (forall b, r = Ref b -> b < length h) ->
        binop_l c l r h = Ok (a, h') ->
        wf_heap h' /\ h `prefix_of` h' /\ a < length h')
  /\ (forall c v r a h',
        r < length h ->
        binop_r c v r h = Ok (a, h') ->
        wf_heap h' /\ h `prefix_of` h' /\ a < length h').
Proof.
  intros Hwf. split_and!.
  - intros [b|v] a h'; simpl; [done|].
    destruct (is_number v); [|done]. intros [= <- <-].
    apply new_wf; [done|apply wf_node_terminal].
  - intros [b|v] a h'; simpl; [done|].
    destruct (is_str v); [|done]. intros [= <- <-].
    apply new_wf; [done|apply wf_node_terminal].
  - intros c l [b|v] a h' Hl Hr.
    + rewrite binop_l_ref. intros [= <- <-].
      apply new_wf; [done|]. apply wf_node_operator; [done|by apply Hr].
    + destruct (is_number v) eqn:Hv.
      * rewrite binop_l_num by done. intros [= <- <-]. split_and!.
        -- apply wf_heap_snoc2; [done|apply wf_node_terminal|].
           apply wf_node_operator; lia.
        -- by apply prefix_app_r.
        -- rewrite length_app. simpl. lia.
      * unfold binop_l. rewrite method_binary. unfold bind, binary.
        by rewrite Hv.
  - intros c v r a h' Hr. destruct (is_number v) eqn:Hv.
    + rewrite binop_r_num by done. intros [= <- <-]. split_and!.
      * apply wf_heap_snoc2; [done|apply wf_node_terminal|].
        apply wf_node_operator; lia.
      * by apply prefix_app_r.
      * rewrite length_app. simpl. lia.
    + unfold binop_r. rewrite rmethod_reflected. unfold bind, reflected.
      by rewrite Hv.
Qed.

Lemma construction_keeps_wf_witness :
  wf_heap [] /\
  exists a h',
    Symbol_init (Val (VStr "x")) [] = Ok (a, h') /\
    wf_heap h' /\ [] `prefix_of` h' /\ a < length h'.
Proof.
  split; [apply wf_heap_nil|].
  eexists _, _. split; [reflexivity|].
  exact (proj1 (proj2 (construction_keeps_wf [] wf_heap_nil))
           (Val (VStr "x")) _ _ eq_refl).
Defined.

(** ** Arithmetic with other values *)

(** X5.  An arithmetic method handed a value that is neither an expression
    nor a number returns NotImplemented and constructs nothing, whichever
    of the ten methods it is, and the operator itself then raises TypeError;
    an operator raises only in this case. *)
Theorem arithmetic_rejects_other_values (c : ocls) (self : addr) (h : heap) :
  (forall v, is_number v = false ->
     method c self (Val v) h = Ok (None, h) /\
     rmethod c self (Val v) h = Ok (None, h) /\
     binop_l c self (Val v) h = Raise UnsupportedOperand /\
     binop_r c v self h = Raise UnsupportedOperand)
  /\ (forall other x, binop_l c self other h = Raise x ->
        x = UnsupportedOperand /\
        exists v, other = Val v /\ is_number v = false)
  /\ (forall v x, binop_r c v self h = Raise x ->
        x = UnsupportedOperand /\ is_number v = false).
Proof.
  split_and!.
  - intros v Hv. unfold binop_l, binop_r.
    rewrite method_binary, rmethod_reflected.
    unfold bind, binary, reflected. by rewrite Hv.
  - intros [b|v] x.
    + by rewrite binop_l_ref.
    + destruct (is_number v) eqn:Hv.
      * by rewrite binop_l_num.
      * unfold binop_l. rewrite method_binary. unfold bind, binary.
        rewrite Hv. intros [= <-]. split; [done|]. by exists v.
  - intros v x. destruct (is_number v) eqn:Hv.
    + by rewrite binop_r_num.
    + unfold binop_r. rewrite rmethod_reflected. unfold bind, reflected.
      rewrite Hv. by intros [= <-].
Qed.

(** ** The other rules *)

(** X6.  The sum rule: on two float results the [Add] rule returns their
    float sum and constructs nothing; as soon as one result is an
    expression it returns a new [Add] node over the two results, a float
    among them lifted into a new [Number]. *)
Theorem sum_rule var e ops (h : heap) :
  h !! e = Some (Operator Add ops) ->
  (forall x y,
     differentiate var e [DFloat x; DFloat y] h = Ok (DFloat (x + y), h))
  /\ (forall da db,
        (exists a, da = DExpr a) \/ (exists b, db = DExpr b) ->
        exists r x y h',
          differentiate var e [da; db] h = Ok (DExpr r, h') /\
          h `prefix_of` h' /\
          h' !! r = Some (Operator Add [x; y]) /\
          lifted h h' da x /\ lifted h h' db y).
Proof.
  intros He. split.
  - intros x y. by rewrite (differentiate_Add var e ops _ _ h He).
  - intros da db Hex. rewrite (differentiate_Add var e ops _ _ h He).
    destruct (dadd_expr_spec da db h Hex)
      as (r & x & y & h' & Heq & Hp & _ & Hr & Hx & Hy & _).
    by exists r, x, y, h'.
Qed.

Lemma sum_rule_witness :
  let h := [Terminal Symbol (VStr "x"); Terminal Symbol (VStr "y");
            Operator Add [0; 1]] in
  h !! 2 = Some (Operator Add [0; 1]) /\
  differentiate "x" 2 [DFloat 1; DFloat 0] h = Ok (DFloat (1 + 0), h).
Proof.
  intros h. split; [reflexivity|].
  exact (proj1 (sum_rule "x" 2 [0; 1] h eq_refl) 1%float 0%float).
Defined.

(** X7.  The quotient rule: on a [Div] node with operands [a], [b] and
    results [da], [db] the rule returns
    [Div(Sub(Mul(da, b), Mul(a, db)), Pow(b, Number(2)))], built from new
    nodes over the original operands; the exponent is the [int] 2. *)
Theorem quotient_rule var e a b da db (h : heap) :
  h !! e = Some (Operator Div [a; b]) ->
  exists r n p t1 t2 x y two h',
    differentiate var e [da; db] h = Ok (DExpr r, h') /\
    h `prefix_of` h' /\
    h' !! r = Some (Operator Div [n; p]) /\
    h' !! n = Some (Operator Sub [t1; t2]) /\
    h' !! t1 = Some (Operator Mul [x; b]) /\
    h' !! t2 = Some (Operator Mul [a; y]) /\
    h' !! p = Some (Operator Pow [b; two]) /\
    h' !! two = Some (Terminal Number (VInt 2)) /\
    lifted h h' da x /\ lifted h h' db y.
Proof.
  intros He.
  destruct (differentiate_Div var e a b da db h He)
    as (r & n & p & t1 & t2 & x & y & two & h' & H1 & H2 & H3 & H4 & H5 &
        H6 & H7 & H8 & H9 & H10 & _).
  by exists r, n, p, t1, t2, x, y, two, h'.
Qed.

Lemma quotient_rule_witness :
  let h := [Terminal Symbol (VStr "x"); Terminal Symbol (VStr "y");
            Operator Div [0; 1]] in
  h !! 2 = Some (Operator Div [0; 1]) /\
  exists r n p t1 t2 x y two h',
    differentiate "x" 2 [DFloat 1; DFloat 0] h = Ok (DExpr r, h') /\
    h `prefix_of` h' /\
    h' !! r = Some (Operator Div [n; p]) /\
    h' !! n = Some (Operator Sub [t1; t2]) /\
    h' !! t1 = Some (Operator Mul [x; 1]) /\
    h' !! t2 = Some (Operator Mul [0; y]) /\
    h' !! p = Some (Operator Pow [1; two]) /\
    h' !! two = Some (Terminal Number (VInt 2)) /\
    lifted h h' (DFloat 1) x /\ lifted h h' (DFloat 0) y.
Proof.
  intros h. split; [reflexivity|].
  exact (quotient_rule "x" 2 0 1 (DFloat 1) (DFloat 0) h eq_refl).
Defined.

(** X8.  The power rule: on a [Pow] node with operands [a], [b] the rule
    returns [Mul(Mul(da, b), Pow(a, Sub(b, Number(1))))].  It reads the
    result for the base only: whatever the results for the exponent and
    beyond are, and whether there are any, the outcome is the same. *)
Theorem power_rule var e a b da rest (h : heap) :
  h !! e = Some (Operator Pow [a; b]) ->
  exists r t q s x one h',
    differentiate var e (da :: rest) h = Ok (DExpr r, h') /\
    h `prefix_of` h' /\
    h' !! r = Some (Operator Mul [t; q]) /\
    h' !! t = Some (Operator Mul [x; b]) /\
    h' !! q = Some (Operator Pow [a; s]) /\
    h' !! s = Some (Operator Sub [b; one]) /\
    h' !! one = Some (Terminal Number (VInt 1)) /\
    lifted h h' da x.
Proof.
  intros He.
  assert (Hsame : differentiate var e (da :: rest) h =
                  differentiate var e [da; DFloat 0] h).
  { unfold differentiate.
    erewrite !bind_ok by (unfold deref; by rewrite He). done. }
  rewrite Hsame.
  destruct (differentiate_Pow var e a b da (DFloat 0) h He)
    as (r & t & q & s & x & one & h' & H1 & H2 & H3 & H4 & H5 & H6 & H7 &
        H8 & _).
  by exists r, t, q, s, x, one, h'.
Qed.

Lemma power_rule_witness :
  let h := [Terminal Symbol (VStr "x"); Terminal Symbol (VStr "y");
            Operator Pow [0; 1]] in
  h !! 2 = Some (Operator Pow [0; 1]) /\
  exists r t q s x one h',
    differentiate "x" 2 [DFloat 1] h = Ok (DExpr r, h') /\
    h `prefix_of` h' /\
    h' !! r = Some (Operator Mul [t; q]) /\
    h' !! t = Some (Operator Mul [x; 1]) /\
    h' !! q = Some (Operator Pow [0; s]) /\
    h' !! s = Some (Operator Sub [1; one]) /\
    h' !! one = Some (Terminal Number (VInt 1)) /\
    lifted h h' (DFloat 1) x.
Proof.
  intros h. split; [reflexivity|].
  exact (power_rule "x" 2 0 1 (DFloat 1) [] h eq_refl).
Defined.

(** ** What the rendering does not show *)

Lemma append_assoc (s1 s2 s3 : string) :
  (s1 +:+ s2) +:+ s3 = s1 +:+ s2 +:+ s3.
Proof.
  induction s1 as [|a s1 IH]; [reflexivity|].
  change (String a ((s1 +:+ s2) +:+ s3) = String a (s1 +:+ s2 +:+ s3)).
  by f_equal.
Qed.

(** X9.  The rendering does not show how operators of one precedence are
    grouped: [a <op1> (b <op2> c)] and [(a <op1> b) <op2> c] render as the
    same string whenever [op1] and [op2] have the same precedence -- so
    [x - (y - z)] and [(x - y) - z] both render as "x - y - z". *)
Theorem render_hides_grouping (float_str : float -> string) (h : heap)
    (c1 c2 : ocls) (a b c right_inner right_outer left_inner left_outer : addr) :
  wf_heap h ->
  oprecedence c1 = oprecedence c2 ->
  h !! right_inner = Some (Operator c2 [b; c]) ->
  h !! right_outer = Some (Operator c1 [a; right_inner]) ->
  h !! left_inner = Some (Operator c1 [a; b]) ->
  h !! left_outer = Some (Operator c2 [left_inner; c]) ->
  render float_str h right_outer = render float_str h left_outer /\
  is_Some (render float_str h right_outer).
Proof.
  intros Hwf Hprec Hri Hro Hli Hlo.
  destruct (render_operator float_str h right_inner c2 b c Hwf Hri)
    as (eb & ec & sb & sc & Hb & Hc & Hsb & Hsc & Eri).
  destruct (render_operator float_str h right_outer c1 a right_inner Hwf Hro)
    as (ea & eri & sa & sri & Ha & Hri' & Hsa & Hsri & Ero).
  destruct (render_operator float_str h left_inner c1 a b Hwf Hli)
    as (ea' & eb' & sa' & sb' & Ha' & Hb' & Hsa' & Hsb' & Eli).
  destruct (render_operator float_str h left_outer c2 left_inner c Hwf Hlo)
    as (eli & ec' & sli & sc' & Hli' & Hc' & Hsli & Hsc' & Elo).
  replace eri with (Operator c2 [b; c]) in * by congruence.
  replace eli with (Operator c1 [a; b]) in * by congruence.
  replace ea' with ea in * by congruence.
  replace eb' with eb in * by congruence.
  replace ec' with ec in * by congruence.
  replace sa' with sa in * by congruence.
  replace sb' with sb in * by congruence.
  replace sc' with sc in * by congruence.
  rewrite Eri in Hsri. injection Hsri as <-.
  rewrite Eli in Hsli. injection Hsli as <-.
  rewrite Ero, Elo. split; [|by eexists]. f_equal.
  simpl precedence. rewrite Hprec, !Nat.ltb_irrefl.
  by rewrite !append_assoc.
Qed.

Lemma render_hides_grouping_witness :
  let h := [Terminal Symbol (VStr "x"); Terminal Symbol (VStr "y");
            Terminal Symbol (VStr "z"); Operator Sub [1; 2];
            Operator Sub [0; 3]; Operator Sub [0; 1]; Operator Sub [5; 2]] in
  wf_heap h /\
  render (fun _ => ""%string) h 4 = render (fun _ => ""%string) h 6 /\
  is_Some (render (fun _ => ""%string) h 4).
Proof.
  intros h.
  assert (Hwf : wf_heap h) by (apply wf_heap_check; reflexivity).
  split; [exact Hwf|].
  exact (render_hides_grouping (fun _ => ""%string) h Sub Sub 0 1 2 3 4 5 6
           Hwf eq_refl eq_refl eq_refl eq_refl eq_refl).
Defined.

(** ** The diagnostic form *)

Section ReprFacts.

Variable float_repr : float -> string.
Variable str_repr : string -> string.

Lemma repr_mono h : forall n m a s,
  repr float_repr str_repr n h a = Some s -> n <= m ->
  repr float_repr str_repr m h a = Some s.
Proof.
  induction n as [|n IH]; intros m a s Hs Hle; [done|].
  destruct m as [|m]; [lia|]. simpl in *.
  destruct (h !! a) as [[tc v|c ops]|]; try done.
  destruct (mapM _ ops) as [items|] eqn:Hitems; [|done].
  simpl in Hs. injection Hs as <-.
  apply mapM_Some in Hitems.
  assert (Hitems' : mapM (repr float_repr str_repr m h) ops = Some items).
  { apply mapM_Some. eapply Forall2_impl; [exact Hitems|].
    intros o p Hp. apply (IH m o p Hp). lia. }
  by rewrite Hitems'.
Qed.

Lemma debug_form_total h :
  wf_heap h ->
  forall a, a < length h -> is_Some (debug_form float_repr str_repr h a).
Proof.
  intros Hwf a. unfold debug_form.
  induction a as [a IH] using lt_wf_ind. intros Ha.
  destruct (lookup_lt_is_Some_2 h a Ha) as [e He]. simpl. rewrite He.
  destruct e as [tc v|c ops]; [by eexists|].
  assert (Hitems : exists items,
            Forall2 (fun o p => repr float_repr str_repr a h o = Some p)
              ops items).
  { assert (Hlt : Forall (fun o => o < a) ops) by apply (Hwf a _ He).
    clear He. induction ops as [|o ops IHops]; [by exists []|].
    apply Forall_cons in Hlt as [Ho Hlt].
    destruct (IHops Hlt) as [items Hitems].
    destruct (IH o Ho ltac:(lia)) as [so Hso].
    exists (so :: items). constructor; [|done].
    apply (repr_mono h (S o) a o so Hso). lia. }
  destruct Hitems as [items Hitems]. apply mapM_Some in Hitems.
  rewrite Hitems. by eexists.
Qed.

End ReprFacts.

(** X10.  The diagnostic form of a node of a well-formed arena: a terminal
    shows as the [repr] of its value, and an operator as its class name
    followed by the forms of its two operands in their order, separated by
    a comma and enclosed in one pair of parentheses -- the shape of the
    constructor call, with no parentheses that depend on precedence. *)
Theorem debug_form_shape (float_repr : float -> string)
    (str_repr : string -> string) (h : heap) :
  wf_heap h ->
  (forall a tc v,
     h !! a = Some (Terminal tc v) ->
     debug_form float_repr str_repr h a = Some (py_repr float_repr str_repr v))
  /\ (forall a c l r,
        h !! a = Some (Operator c [l; r]) ->
        exists sl sr,
          debug_form float_repr str_repr h l = Some sl /\
          debug_form float_repr str_repr h r = Some sr /\
          debug_form float_repr str_repr h a =
            Some (ocls_name c +:+ "(" +:+ sl +:+ ", " +:+ sr +:+ ")")).
Proof.
  intros Hwf. split.
  - intros a tc v Ha. unfold debug_form. simpl. by rewrite Ha.
  - intros a c l r Ha.
    assert (Hl : l < a) by (eapply wf_operand_lt; eauto; apply operand_left).
    assert (Hr : r < a) by (eapply wf_operand_lt; eauto; apply operand_right).
    pose proof (lookup_lt_Some _ _ _ Ha) as Hlen.
    destruct (debug_form_total float_repr str_repr h Hwf l ltac:(lia))
      as [sl Hsl].
    destruct (debug_form_total float_repr str_repr h Hwf r ltac:(lia))
      as [sr Hsr].
    exists sl, sr. split_and!; try done.
    unfold debug_form in *. simpl. rewrite Ha. simpl.
    rewrite (repr_mono float_repr str_repr h (S l) a l sl Hsl) by lia.
    simpl.
    rewrite (repr_mono float_repr str_repr h (S r) a r sr Hsr) by lia.
    simpl. do 2 f_equal. by rewrite !append_assoc.
Qed.

Lemma debug_form_shape_witness :
  let h := [Terminal Symbol (VStr "x"); Terminal Number (VInt 2);
            Operator Pow [0; 1]] in
  let quote := fun s : string => ("'" +:+ s +:+ "'")%string in
  wf_heap h /\
  h !! 2 = Some (Operator Pow [0; 1]) /\
  exists sl sr,
    debug_form (fun _ => ""%string) quote h 0 = Some sl /\
    debug_form (fun _ => ""%string) quote h 1 = Some sr /\
    debug_form (fun _ => ""%string) quote h 2 =
      Some (ocls_name Pow +:+ "(" +:+ sl +:+ ", " +:+ sr +:+ ")").
Proof.
  intros h quote.
  assert (Hwf : wf_heap h) by (apply wf_heap_check; reflexivity).
  split; [exact Hwf|]. split; [reflexivity|].
  exact (proj2 (debug_form_shape (fun _ => ""%string) quote h Hwf)
           2 Pow 0 1 eq_refl).
Defined.

(** ** Which nodes the visitor reduces *)

Lemma reach_inv h e node s :
  reach h e s -> h !! e = Some node ->
  s = e \/ exists o, o ∈ operands node /\ reach h o s.
Proof.
  intros Hr He. destruct Hr as [a|a e' o b He' Ho Hr]; [by left|].
  right. exists o. split; [congruence|done].
Qed.

Section Coverage.

Context {W R : Type}.
Variable heap_of : W -> heap.
Variable fn : addr -> list R -> W -> outcome (R * W).

(** The step function returns or raises, and what it does to the arena is
    to construct nodes. *)
Hypothesis fn_returns : forall e args w, fn e args w <> OutOfFuel.
Hypothesis fn_constructs :
  forall e args w r w',
    fn e args w = Ok (r, w') -> heap_of w `prefix_of` heap_of w'.

Variable h : heap.
Hypothesis wf : wf_heap h.
Variable root : addr.

Lemma calls_reachable : forall fuel stack visited w,
  h `prefix_of` heap_of w ->
  Forall (fun e => reach h root e /\ e < length h) stack ->
  Forall (fun c => reach h root (call_node c))
    (calls heap_of fn fuel stack visited w).
Proof.
  induction fuel as [|fuel IH]; intros stack visited w Hp Hst.
  { destruct stack; constructor. }
  destruct stack as [|e stack]; simpl; [constructor|].
  apply Forall_cons in Hst as [[Hre Hlt] Hst].
  destruct (lookup_lt_is_Some_2 h e Hlt) as [node Hnode].
  assert (Hw : heap_of w !! e = Some node)
    by (eapply prefix_lookup_Some; eauto).
  unfold visit. rewrite Hw.
  destruct (filter _ (operands node)) as [|u us] eqn:Hu; simpl.
  - destruct (mapM _ (operands node)) as [args|]; simpl; [|constructor].
    destruct (fn e args w) as [[r w']|x|] eqn:Hfn; simpl.
    + constructor; [done|]. apply IH; [|done].
      etrans; [exact Hp|]. by eapply fn_constructs.
    + by repeat constructor.
    + by repeat constructor.
  - apply IH; [done|]. apply Forall_app. split.
    + apply Forall_forall. intros o Ho.
      rewrite elem_of_reverse, <- Hu in Ho.
      apply list_elem_of_filter in Ho as [_ Ho]. split.
      * by eapply reach_operand.
      * pose proof (wf_operand_lt h e node o wf Hnode Ho). lia.
    + by constructor.
Qed.

Lemma logged_while : forall fuel stack visited w log,
  while_stack (fun s => heap_of (fst s)) (logged fn) fuel stack visited (w, log)
  = match while_stack heap_of fn fuel stack visited w with
    | Ok (visited', w') =>
        Ok (visited',
            (w', log ++ map call_node (calls heap_of fn fuel stack visited w)))
    | Raise x => Raise x
    | OutOfFuel => OutOfFuel
    end.
Proof.
  induction fuel as [|fuel IH]; intros stack visited w log.
  { destruct stack; simpl; [by rewrite app_nil_r|done]. }
  destruct stack as [|e stack]; simpl; [by rewrite app_nil_r|].
  unfold visit, logged. simpl.
  destruct (heap_of w !! e) as [node|]; simpl; [|done].
  destruct (filter _ (operands node)) as [|u us]; simpl; [|by apply IH].
  destruct (mapM _ (operands node)) as [args|]; simpl; [|done].
  destruct (fn e args w) as [[r w']|x|]; simpl; try done.
  rewrite IH.
  destruct (while_stack heap_of fn fuel stack (<[e:=r]> visited) w')
    as [[V' w'']|x|]; try done.
  by rewrite <- app_assoc.
Qed.

Lemma logged_step e node args (s : W * list addr) :
  True -> h `prefix_of` heap_of (fst s) -> h !! e = Some node ->
  Forall2 (fun o (a : R) => forall t, reach h o t -> t ∈ snd s)
    (operands node) args ->
  match logged fn e args s with
  | Ok (r, s') =>
      h `prefix_of` heap_of (fst s') /\ snd s `prefix_of` snd s' /\
      forall t, reach h e t -> t ∈ snd s'
  | Raise x => True
  | OutOfFuel => False
  end.
Proof.
  intros _ Hp He Hargs. unfold logged.
  pose proof (fn_returns e args (fst s)) as Hret.
  destruct (fn e args (fst s)) as [[r w']|x|] eqn:Hfn; [|done|done].
  simpl. split_and!.
  - etrans; [exact Hp|]. by eapply fn_constructs.
  - by apply prefix_app_r.
  - intros t Ht. apply elem_of_app.
    destruct (reach_inv h e node t Ht He) as [->|(o & Ho & Hot)].
    + right. by apply list_elem_of_singleton.
    + left. destruct (Forall2_elem_of_l _ _ _ _ Hargs Ho) as (a & Ha).
      by apply Ha.
Qed.

(** X11.  The visitor calls the step function on nodes under the root
    only, in every run; and when it returns, it has called the step function
    on every node under the root.  The step function may construct nodes,
    as the rules of differentiation do. *)
Theorem visitor_reduces_what_is_reachable fuel w :
  heap_of w = h ->
  (forall c, c ∈ postvisitor_calls heap_of fn fuel root w ->
     reach h root (call_node c))
  /\ (forall r w',
        postvisitor heap_of fn fuel root w = Ok (r, w') ->
        forall s, reach h root s ->
          s ∈ map call_node (postvisitor_calls heap_of fn fuel root w)).
Proof.
  intros Hw. split.
  - intros c Hc. unfold postvisitor_calls in Hc.
    destruct (decide (root < length h)) as [Hroot|Hroot].
    + assert (Hall := calls_reachable fuel [root] ∅ w
                        ltac:(by rewrite Hw)
                        ltac:(by repeat constructor)).
      rewrite Forall_forall in Hall. by apply Hall.
    + destruct fuel as [|fuel]; simpl in Hc; [by apply elem_of_nil in Hc|].
      unfold visit in Hc. rewrite Hw in Hc.
      rewrite (lookup_ge_None_2 h root) in Hc by lia.
      by apply elem_of_nil in Hc.
  - intros r w' Hres s Hs.
    assert (Hroot : root < length h).
    { destruct (decide (root < length h)) as [Hroot|Hroot]; [done|].
      unfold postvisitor in Hres. destruct fuel as [|fuel]; [done|].
      simpl in Hres. unfold visit in Hres. rewrite Hw in Hres.
      by rewrite (lookup_ge_None_2 h root) in Hres by lia. }
    destruct (postvisitor_rule (fun s => heap_of (fst s)) (logged fn) h wf
                (fun s => h `prefix_of` heap_of (fst s))
                (fun s s' => snd s `prefix_of` snd s')
                ltac:(intros; simpl; reflexivity)
                ltac:(intros ? ? ?; simpl; intros; by etrans)
                ltac:(intros s0 e Hp He; symmetry; by apply prefix_lookup_lt)
                (fun _ => True) ltac:(done)
                (fun e _ s0 => forall t, reach h e t -> t ∈ snd s0)
                (fun _ => True)
                ltac:(intros s0 s1 e r0 Hp HQ t Ht; simpl in *;
                      eapply elem_of_prefix; [by apply HQ|done])
                logged_step root (w, []) Hroot I
                ltac:(simpl; by rewrite Hw))
      as [n Hn].
    specialize (Hn fuel). replace (n + fuel) with (fuel + n) in Hn by lia.
    assert (Hlogged : postvisitor (fun s => heap_of (fst s)) (logged fn)
                        fuel root (w, []) =
              Ok (r, (w', map call_node
                            (postvisitor_calls heap_of fn fuel root w)))).
    { unfold postvisitor in *. rewrite logged_while.
      destruct (while_stack heap_of fn fuel [root] ∅ w) as [[V w1]|x|];
        try done.
      destruct (V !! root); [|done]. by injection Hres as -> ->. }
    rewrite postvisitor_more in Hn by (by rewrite Hlogged).
    rewrite Hlogged in Hn. destruct Hn as (_ & _ & Hcover).
    by apply Hcover.
Qed.

End Coverage.

Lemma visitor_reduces_what_is_reachable_witness :
  let h := [Terminal Symbol (VStr "x"); Operator Mul [0; 0]] in
  wf_heap h /\
  (forall c, c ∈ postvisitor_calls fst counting_step 4 1 (h, 0) ->
     reach h 1 (call_node c))
  /\ (forall r w',
        postvisitor fst counting_step 4 1 (h, 0) = Ok (r, w') ->
        forall s, reach h 1 s ->
          s ∈ map call_node (postvisitor_calls fst counting_step 4 1 (h, 0))).
Proof.
  intros h.
  assert (Hwf : wf_heap h) by (apply wf_heap_check; reflexivity).
  split; [exact Hwf|].
  apply (visitor_reduces_what_is_reachable fst counting_step); try done.
  intros e args w r w' [= <- <-]. done.
Defined.

(** ** Expressions without sharing *)

Lemma bind_ext_in {A B} (f g : A -> list B) (l : list A) :
  (forall x, x ∈ l -> f x = g x) -> l ≫= f = l ≫= g.
Proof.
  induction l as [|x l IH]; intros Hfg; [done|].
  rewrite !bind_cons, Hfg, IH; [done| |by left].
  intros y Hy. apply Hfg. by right.
Qed.

Lemma walk_S n h e :
  walk (S n) h e =
    match h !! e with
    | None => []
    | Some node => (reverse (operands node) ≫= walk n h) ++ [e]
    end.
Proof. reflexivity. Qed.

Lemma walk_enough h :
  wf_heap h ->
  forall n m e, e < n -> e < m -> walk n h e = walk m h e.
Proof.
  intros Hwf. induction n as [|n IH]; intros m e Hn Hm; [lia|].
  destruct m as [|m]; [lia|]. simpl.
  destruct (h !! e) as [node|] eqn:He; [|done]. f_equal.
  apply bind_ext_in. intros o Ho. rewrite elem_of_reverse in Ho.
  pose proof (wf_operand_lt h e node o Hwf He Ho). apply IH; lia.
Qed.

Lemma traversal_unfold h e node :
  wf_heap h -> h !! e = Some node ->
  traversal h e = (reverse (operands node) ≫= traversal h) ++ [e].
Proof.
  intros Hwf He. unfold traversal. rewrite walk_S, He. f_equal.
  apply bind_ext_in. intros o Ho. rewrite elem_of_reverse in Ho.
  pose proof (wf_operand_lt h e node o Hwf He Ho).
  apply walk_enough; [done|lia|lia].
Qed.

Lemma traversal_self h e :
  wf_heap h -> e < length h -> e ∈ traversal h e.
Proof.
  intros Hwf He. destruct (lookup_lt_is_Some_2 h e He) as [node Hnode].
  rewrite (traversal_unfold h e node Hwf Hnode).
  apply elem_of_app. right. by apply list_elem_of_singleton.
Qed.

Lemma traversal_operand h e node o a :
  wf_heap h -> h !! e = Some node -> o ∈ operands node ->
  a ∈ traversal h o -> a ∈ traversal h e.
Proof.
  intros Hwf He Ho Ha. rewrite (traversal_unfold h e node Hwf He).
  apply elem_of_app. left. apply list_elem_of_bind.
  exists o. split; [done|]. by apply elem_of_reverse.
Qed.

(** The traversal lists what is under the node. *)
Lemma traversal_reach h :
  wf_heap h ->
  forall e a, e < length h -> (a ∈ traversal h e <-> reach h e a).
Proof.
  intros Hwf e a He. split.
  - revert a He. induction e as [e IH] using lt_wf_ind. intros a He Ha.
    destruct (lookup_lt_is_Some_2 h e He) as [node Hnode].
    rewrite (traversal_unfold h e node Hwf Hnode) in Ha.
    apply elem_of_app in Ha as [Ha|Ha].
    + apply list_elem_of_bind in Ha as (o & Ha & Ho).
      rewrite elem_of_reverse in Ho.
      pose proof (wf_operand_lt h e node o Hwf Hnode Ho).
      eapply reach_step; [exact Hnode|exact Ho|]. apply IH; [done|lia|done].
    + apply list_elem_of_singleton in Ha as ->. constructor.
  - intros Hr. induction Hr as [e|e node o b Hnode Ho Hr IH].
    + by apply traversal_self.
    + eapply traversal_operand; eauto. apply IH.
      pose proof (wf_operand_lt h e node o Hwf Hnode Ho). lia.
Qed.

Lemma filter_all_unvisited {R} (visited : gmap nat R) (ops : list addr) :
  (forall o, o ∈ ops -> visited !! o = None) ->
  filter (fun o => visited !! o = None) ops = ops.
Proof.
  induction ops as [|o ops IH]; intros Hall; [done|].
  rewrite filter_cons. destruct (decide (visited !! o = None)) as [_|Hn].
  - f_equal. apply IH. intros o' Ho'. apply Hall. by right.
  - destruct Hn. apply Hall. by left.
Qed.

Section PostvisitorCalls.

Context {W R : Type}.
Variable heap_of : W -> heap.
Variable fn : addr -> list R -> W -> outcome (R * W).

Local Abbreviation visit := (visit heap_of fn).
Local Abbreviation calls := (calls heap_of fn).
Local Abbreviation steps := (steps heap_of fn).

Lemma calls_O st V w : calls 0 st V w = [].
Proof. by destruct st. Qed.

Lemma calls_one e st V w c st' V' w' :
  visit e st V w = (c, Ok (st', V', w')) ->
  calls 1 (e :: st) V w = option_list c.
Proof.
  intros Hv. simpl. rewrite Hv. destruct st'; by rewrite app_nil_r.
Qed.

(** The calls of a run in two parts. *)
Lemma calls_steps n st V w st' V' w' :
  steps n (st, V, w) (st', V', w') ->
  forall m, calls (n + m) st V w = calls n st V w ++ calls m st' V' w'.
Proof.
  intros Hs. remember (st, V, w) as c eqn:Hc.
  remember (st', V', w') as c' eqn:Hc'.
  revert st V w Hc.
  induction Hs as [c|n e st0 V0 w0 c1 c2 Hv Hs IH]; intros st V w Hc m; subst.
  - injection Hc as -> -> ->. by rewrite calls_O.
  - injection Hc as <- <- <-. simpl.
    destruct (visit e st0 V0 w0) as [c next]. simpl in Hv. subst next.
    destruct c1 as [[st1 V1] w1].
    rewrite (IH eq_refl st1 V1 w1 eq_refl m). by rewrite app_assoc.
Qed.

Lemma visit_expand_all e stack visited w node :
  heap_of w !! e = Some node ->
  operands node <> [] ->
  (forall o, o ∈ operands node -> visited !! o = None) ->
  visit e stack visited w =
    (None, Ok (reverse (operands node) ++ e :: stack, visited, w)).
Proof.
  intros He Hops Hall. unfold visit. rewrite He.
  rewrite (filter_all_unvisited visited (operands node) Hall).
  by destruct (operands node).
Qed.

End PostvisitorCalls.

Section TreeRuns.

Context {W R : Type}.
Variable heap_of : W -> heap.
Variable fn : addr -> list R -> W -> outcome (R * W).

Local Abbreviation visit := (visit heap_of fn).
Local Abbreviation calls := (calls heap_of fn).
Local Abbreviation steps := (steps heap_of fn).
Local Abbreviation postvisitor := (postvisitor heap_of fn).
Local Abbreviation postvisitor_calls := (postvisitor_calls heap_of fn).

(** The step function always returns, and what it does to the arena is to
    construct nodes. *)
Hypothesis fn_total :
  forall e args w, exists r w',
    fn e args w = Ok (r, w') /\ heap_of w `prefix_of` heap_of w'.

Variable h : heap.
Hypothesis wf : wf_heap h.

Local Abbreviation reduces_once := (reduces_once heap_of fn h).

Lemma calls_nil m V w : calls m [] V w = [].
Proof. by destruct m. Qed.

Lemma once_list (l : list addr) :
  Forall (fun o => forall stack visited w,
            h `prefix_of` heap_of w ->
            NoDup (traversal h o) ->
            (forall a, a ∈ traversal h o -> visited !! a = None) ->
            reduces_once [o] stack visited w) l ->
  forall stack visited w,
    h `prefix_of` heap_of w ->
    NoDup (l ≫= traversal h) ->
    (forall a, a ∈ l ≫= traversal h -> visited !! a = None) ->
    reduces_once l stack visited w.
Proof.
  induction 1 as [|o l Ho _ IH]; intros stack visited w Hp Hnd Hfresh.
  { exists 0, visited, w. split_and!.
    - constructor.
    - done.
    - by rewrite (calls_O heap_of fn).
    - intros a. split; [by left|]. intros [Ha|Ha]; [done|].
      by apply elem_of_nil in Ha. }
  rewrite bind_cons in Hnd, Hfresh.
  apply NoDup_app in Hnd as (Hnd1 & Hdisj & Hnd2).
  destruct (Ho (l ++ stack) visited w Hp Hnd1)
    as (n1 & V1 & w1 & Hs1 & Hp1 & Hc1 & Hdom1).
  { intros a Ha. apply Hfresh, elem_of_app. by left. }
  rewrite bind_singleton in Hc1, Hdom1.
  destruct (IH stack V1 w1 Hp1 Hnd2)
    as (n2 & V2 & w2 & Hs2 & Hp2 & Hc2 & Hdom2).
  { intros a Ha. apply eq_None_not_Some. intros HV1.
    apply Hdom1 in HV1 as [HV|Hin].
    - rewrite (Hfresh a) in HV; [by destruct HV|].
      apply elem_of_app. by right.
    - by apply (Hdisj a). }
  exists (n1 + n2), V2, w2. split_and!.
  - eapply steps_trans; [exact Hs1|exact Hs2].
  - done.
  - change ((o :: l) ++ stack) with ([o] ++ l ++ stack).
    rewrite (calls_steps heap_of fn _ _ _ _ _ _ _ Hs1), map_app.
    by rewrite Hc1, Hc2, bind_cons.
  - intros a. rewrite Hdom2, Hdom1, bind_cons, elem_of_app. tauto.
Qed.

Lemma once_node : forall e,
  e < length h ->
  forall stack visited w,
    h `prefix_of` heap_of w ->
    NoDup (traversal h e) ->
    (forall a, a ∈ traversal h e -> visited !! a = None) ->
    reduces_once [e] stack visited w.
Proof.
  induction e as [e IH] using lt_wf_ind.
  intros He stack visited w Hp Hnd Hfresh.
  destruct (lookup_lt_is_Some_2 h e He) as [node Hnode].
  assert (Hw : heap_of w !! e = Some node)
    by (eapply prefix_lookup_Some; eauto).
  pose proof (traversal_unfold h e node wf Hnode) as Hunf.
  assert (Hvalid : forall o, o ∈ operands node -> o < e).
  { intros o Ho. by eapply wf_operand_lt. }
  (* the last iteration: all operands cached, the step function runs *)
  assert (Hlast : forall V1 w1,
            h `prefix_of` heap_of w1 ->
            (forall o, o ∈ operands node -> is_Some (V1 !! o)) ->
            exists r w2 args,
              visit e stack V1 w1 =
                (Some (Call e w1 args (Some r)),
                 Ok (stack, <[e:=r]> V1, w2)) /\
              h `prefix_of` heap_of w2).
  { intros V1 w1 Hp1 Hall.
    assert (Hw1 : heap_of w1 !! e = Some node)
      by (by apply (prefix_lookup_Some h)).
    destruct (visit_apply heap_of fn e stack V1 w1 node Hw1)
      as (args & _ & Hvisit); [by apply Forall_forall|].
    destruct (fn_total e args w1) as (r & w2 & Hfn & Hp2).
    rewrite Hfn in Hvisit. exists r, w2, args. split; [done|]. by etrans. }
  destruct (decide (operands node = [])) as [Hops|Hops].
  - destruct (Hlast visited w Hp) as (r & w2 & args & Hvisit & Hp2).
    { intros o Ho. rewrite Hops in Ho. by apply elem_of_nil in Ho. }
    exists 1, (<[e:=r]> visited), w2. split_and!.
    + apply steps_one. by rewrite Hvisit.
    + done.
    + change ([e] ++ stack) with (e :: stack).
      rewrite (calls_one heap_of fn _ _ _ _ _ _ _ _ Hvisit).
      by rewrite bind_singleton, Hunf, Hops.
    + intros a. rewrite bind_singleton, Hunf, Hops. simpl.
      rewrite list_elem_of_singleton.
      destruct (decide (a = e)) as [->|Hne].
      * rewrite lookup_insert_eq. split; [by right|by eexists].
      * rewrite lookup_insert_ne by done. tauto.
  - assert (Hin : forall o a, o ∈ operands node -> a ∈ traversal h o ->
                    a ∈ reverse (operands node) ≫= traversal h).
    { intros o a Ho Ha. apply list_elem_of_bind. exists o.
      split; [done|]. by apply elem_of_reverse. }
    assert (Hunvisited : forall o, o ∈ operands node -> visited !! o = None).
    { intros o Ho. apply Hfresh. rewrite Hunf. apply elem_of_app. left.
      apply (Hin o o Ho). apply traversal_self; [done|].
      specialize (Hvalid o Ho). lia. }
    pose proof (visit_expand_all heap_of fn e stack visited w node Hw Hops
                  Hunvisited) as Hexpand.
    rewrite Hunf in Hnd. apply NoDup_app in Hnd as (Hnd1 & Hnote & _).
    destruct (once_list (reverse (operands node))) with
      (stack := e :: stack) (visited := visited) (w := w)
      as (n1 & V1 & w1 & Hs1 & Hp1 & Hc1 & Hdom1); try done.
    { apply Forall_forall. intros o Ho. rewrite elem_of_reverse in Ho.
      intros st V w0. apply IH; [by apply Hvalid|].
      specialize (Hvalid o Ho). lia. }
    { intros a Ha. apply Hfresh. rewrite Hunf. apply elem_of_app. by left. }
    destruct (Hlast V1 w1 Hp1) as (r & w2 & args & Hvisit & Hp2).
    { intros o Ho. apply Hdom1. right. apply (Hin o o Ho).
      apply traversal_self; [done|]. specialize (Hvalid o Ho). lia. }
    assert (Hs : steps (1 + (n1 + 1)) ([e] ++ stack, visited, w)
                   (stack, <[e:=r]> V1, w2)).
    { eapply steps_trans; [apply steps_one; by rewrite Hexpand|].
      eapply steps_trans; [exact Hs1|]. apply steps_one. by rewrite Hvisit. }
    exists (1 + (n1 + 1)), (<[e:=r]> V1), w2. split_and!; try done.
    + change ([e] ++ stack) with (e :: stack).
      rewrite (calls_steps heap_of fn 1 (e :: stack) visited w
                 (reverse (operands node) ++ e :: stack) visited w);
        [|apply steps_one; by rewrite Hexpand].
      rewrite (calls_steps heap_of fn _ _ _ _ _ _ _ Hs1).
      rewrite (calls_one heap_of fn _ _ _ _ _ _ _ _ Hexpand).
      rewrite (calls_one heap_of fn _ _ _ _ _ _ _ _ Hvisit).
      rewrite bind_singleton, Hunf.
      change (option_list None ++ ?l) with l. by rewrite map_app, Hc1.
    + intros a. rewrite bind_singleton, Hunf, elem_of_app.
      rewrite list_elem_of_singleton.
      destruct (decide (a = e)) as [->|Hne].
      * rewrite lookup_insert_eq. split; [by right; right|by eexists].
      * rewrite lookup_insert_ne by done. rewrite Hdom1. tauto.
Qed.

(** X12.  On an expression without sharing -- no node under the root is
    reached along two paths -- the visitor calls a step function that always
    returns exactly once on every node under the root, in the order of the
    traversal (operands from the last to the first, each before its parent),
    and then returns. *)
Theorem tree_reduced_once root w :
  root < length h -> tree_shaped h root -> heap_of w = h ->
  exists n, forall k,
    (exists r w', postvisitor (n + k) root w = Ok (r, w'))
    /\ map call_node (postvisitor_calls (n + k) root w) = traversal h root
    /\ NoDup (map call_node (postvisitor_calls (n + k) root w))
    /\ forall s, s ∈ map call_node (postvisitor_calls (n + k) root w) <->
                 reach h root s.
Proof.
  intros Hroot Htree Hw.
  destruct (once_node root Hroot [] ∅ w ltac:(by rewrite Hw) Htree)
    as (n & V & w' & Hs & Hp & Hc & Hdom); [done|].
  rewrite bind_singleton in Hc, Hdom.
  exists n. intros k.
  assert (Hcalls : map call_node (postvisitor_calls (n + k) root w)
                   = traversal h root).
  { unfold postvisitor_calls.
    rewrite (calls_steps heap_of fn _ _ _ _ _ _ _ Hs), calls_nil.
    by rewrite app_nil_r. }
  split_and!.
  - unfold postvisitor.
    rewrite (steps_while heap_of fn _ _ _ _ _ _ _ Hs), while_stack_nil.
    destruct (proj2 (Hdom root)) as [r Hr].
    { right. by apply traversal_self. }
    rewrite Hr. by eexists _, _.
  - done.
  - by rewrite Hcalls.
  - intros s. rewrite Hcalls. by apply traversal_reach.
Qed.

End TreeRuns.

Lemma tree_reduced_once_witness :
  let h := [Terminal Symbol (VStr "x"); Terminal Symbol (VStr "y");
            Operator Mul [0; 1]] in
  wf_heap h /\ 2 < length h /\ tree_shaped h 2 /\
  exists n, forall k,
    (exists r w', postvisitor fst counting_step (n + k) 2 (h, 0) = Ok (r, w'))
    /\ map call_node (postvisitor_calls fst counting_step (n + k) 2 (h, 0))
       = traversal h 2
    /\ NoDup (map call_node
                (postvisitor_calls fst counting_step (n + k) 2 (h, 0)))
    /\ forall s,
         s ∈ map call_node
               (postvisitor_calls fst counting_step (n + k) 2 (h, 0)) <->
         reach h 2 s.
Proof.
  intros h.
  assert (Hwf : wf_heap h) by (apply wf_heap_check; reflexivity).
  assert (Hlen : 2 < length h) by (simpl; lia).
  assert (Htree : tree_shaped h 2).
  { unfold tree_shaped. apply NoDup_ListNoDup.
    repeat (constructor; [simpl; intros Hin; intuition discriminate|]).
    constructor. }
  split_and!; try done.
  apply (tree_reduced_once fst counting_step); try done.
  intros e args w. by eexists _, _.
Defined.

(** ** The cost of a run *)

Lemma references_app h l1 l2 :
  references h (l1 ++ l2) = references h l1 + references h l2.
Proof. apply sum_list_with_app. Qed.

Lemma references_union h (X Y : gset nat) :
  X ## Y ->
  references h (elements (X ∪ Y))
    = references h (elements X) + references h (elements Y).
Proof.
  intros Hd. unfold references.
  by rewrite (elements_disj_union X Y Hd), sum_list_with_app.
Qed.

Lemma closed_reach {R} h (visited : gmap nat R) e a :
  closed h visited -> e ∈ dom visited -> reach h e a -> a ∈ dom visited.
Proof.
  intros Hc He Hr. induction Hr as [e|e node o b Hnode Ho _ IH]; [done|].
  apply IH. by apply (Hc e node o).
Qed.

Lemma reach_le h a b : wf_heap h -> reach h a b -> b <= a.
Proof.
  intros Hwf Hr. induction Hr as [e|e node o b Hnode Ho _ IH]; [done|].
  pose proof (wf_operand_lt h e node o Hwf Hnode Ho). lia.
Qed.

Section CallBound.

Context {W R : Type}.
Variable heap_of : W -> heap.
Variable fn : addr -> list R -> W -> outcome (R * W).

Local Abbreviation visit := (visit heap_of fn).
Local Abbreviation calls := (calls heap_of fn).
Local Abbreviation steps := (steps heap_of fn).
Local Abbreviation postvisitor := (postvisitor heap_of fn).
Local Abbreviation postvisitor_calls := (postvisitor_calls heap_of fn).

(** The step function always returns, and what it does to the arena is to
    construct nodes. *)
Hypothesis fn_total :
  forall e args w, exists r w',
    fn e args w = Ok (r, w') /\ heap_of w `prefix_of` heap_of w'.

Variable h : heap.
Hypothesis wf : wf_heap h.

Local Abbreviation reduces_within := (reduces_within heap_of fn h).

Lemma visit_expand_some e stack visited w node :
  heap_of w !! e = Some node ->
  filter (fun o => visited !! o = None) (operands node) <> [] ->
  visit e stack visited w =
    (None,
     Ok (reverse (filter (fun o => visited !! o = None) (operands node))
           ++ e :: stack, visited, w)).
Proof.
  intros He Hu. unfold visit. rewrite He.
  by destruct (filter _ (operands node)).
Qed.

Lemma within_list (l : list addr) :
  Forall (fun o => forall stack visited w,
            h `prefix_of` heap_of w -> closed h visited ->
            reduces_within [o] stack visited w) l ->
  forall stack visited w,
    h `prefix_of` heap_of w -> closed h visited ->
    reduces_within l stack visited w.
Proof.
  induction 1 as [|o l Ho _ IH]; intros stack visited w Hp Hcl.
  { exists 0, visited, w, ∅. split_and!.
    - constructor.
    - done.
    - done.
    - by rewrite (right_id_L ∅ (∪)).
    - apply disjoint_empty_l.
    - intros a Ha. by apply elem_of_empty in Ha.
    - intros o Ho. by apply elem_of_nil in Ho.
    - rewrite elements_empty. simpl. lia.
    - rewrite (calls_O heap_of fn). simpl. lia. }
  destruct (Ho (l ++ stack) visited w Hp Hcl)
    as (n1 & V1 & w1 & N1 & Hs1 & Hp1 & Hcl1 & Hdom1 & Hd1 & Hr1 & Hin1 &
        Hlo1 & Hhi1).
  destruct (IH stack V1 w1 Hp1 Hcl1)
    as (n2 & V2 & w2 & N2 & Hs2 & Hp2 & Hcl2 & Hdom2 & Hd2 & Hr2 & Hin2 &
        Hlo2 & Hhi2).
  rewrite Hdom1 in Hd2. apply disjoint_union_r in Hd2 as [Hd2 Hd21].
  assert (Hd12 : N1 ## N2) by done.
  exists (n1 + n2), V2, w2, (N1 ∪ N2). split_and!.
  - eapply steps_trans; [exact Hs1|exact Hs2].
  - done.
  - done.
  - by rewrite Hdom2, Hdom1, (assoc_L (∪)).
  - by apply disjoint_union_l.
  - intros a [Ha|Ha]%elem_of_union.
    + destruct (Hr1 a Ha) as (o' & Ho' & Hreach).
      apply list_elem_of_singleton in Ho' as ->.
      exists o. split; [by left|done].
    + destruct (Hr2 a Ha) as (o' & Ho' & Hreach).
      exists o'. split; [by right|done].
  - intros o' [->|Ho']%elem_of_cons.
    + rewrite Hdom2. apply elem_of_union. left. apply Hin1. by left.
    + by apply Hin2.
  - change ((o :: l) ++ stack) with ([o] ++ l ++ stack).
    rewrite (calls_steps heap_of fn _ _ _ _ _ _ _ Hs1), length_app.
    rewrite (elements_disj_union N1 N2 Hd12), length_app. lia.
  - change ((o :: l) ++ stack) with ([o] ++ l ++ stack).
    rewrite (calls_steps heap_of fn _ _ _ _ _ _ _ Hs1), length_app.
    rewrite (references_union h N1 N2 Hd12). simpl in *. lia.
Qed.

Lemma within_node : forall e,
  e < length h ->
  forall stack visited w,
    h `prefix_of` heap_of w -> closed h visited ->
    reduces_within [e] stack visited w.
Proof.
  induction e as [e IH] using lt_wf_ind.
  intros He stack visited w Hp Hcl.
  destruct (lookup_lt_is_Some_2 h e He) as [node Hnode].
  assert (Hw : heap_of w !! e = Some node)
    by (by apply (prefix_lookup_Some h)).
  assert (Hvalid : forall o, o ∈ operands node -> o < e).
  { intros o Ho. by eapply wf_operand_lt. }
  assert (Harity : arity h e = length (operands node)).
  { unfold arity. by rewrite Hnode. }
  (* the last iteration: all operands cached, the step function runs *)
  assert (Hlast : forall V1 w1,
            h `prefix_of` heap_of w1 -> closed h V1 ->
            (forall o, o ∈ operands node -> o ∈ dom V1) ->
            exists r w2 args,
              visit e stack V1 w1 =
                (Some (Call e w1 args (Some r)),
                 Ok (stack, <[e:=r]> V1, w2)) /\
              h `prefix_of` heap_of w2 /\
              closed h (<[e:=r]> V1)).
  { intros V1 w1 Hp1 Hcl1 Hall.
    assert (Hw1 : heap_of w1 !! e = Some node)
      by (by apply (prefix_lookup_Some h)).
    destruct (visit_apply heap_of fn e stack V1 w1 node Hw1)
      as (args & _ & Hvisit).
    { apply Forall_forall. intros o Ho. by apply elem_of_dom, Hall. }
    destruct (fn_total e args w1) as (r & w2 & Hfn & Hp2).
    rewrite Hfn in Hvisit. exists r, w2, args.
    split_and!; [done|by etrans|].
    intros a nd o Ha Hnd Ho. rewrite dom_insert_L in *.
    apply elem_of_union. right.
    apply elem_of_union in Ha as [Ha|Ha].
    - apply elem_of_singleton in Ha as ->. apply Hall. congruence.
    - by apply (Hcl1 a nd o). }
  destruct (decide (filter (fun o => visited !! o = None) (operands node)
                    = [])) as [Hu|Hu].
  - assert (Hall : forall o, o ∈ operands node -> o ∈ dom visited).
    { intros o Ho. apply elem_of_dom.
      apply filter_unvisited_nil in Hu. rewrite Forall_forall in Hu.
      by apply Hu. }
    destruct (Hlast visited w Hp Hcl Hall)
      as (r & w2 & args & Hvisit & Hp2 & Hcl2).
    assert (Hs : steps 1 ([e] ++ stack, visited, w)
                   (stack, <[e:=r]> visited, w2))
      by (apply steps_one; by rewrite Hvisit).
    assert (Hcalls : calls 1 ([e] ++ stack) visited w
                     = [Call e w args (Some r)]).
    { change ([e] ++ stack) with (e :: stack).
      by rewrite (calls_one heap_of fn _ _ _ _ _ _ _ _ Hvisit). }
    destruct (decide (e ∈ dom visited)) as [Hin|Hnin].
    + (* a node that was reduced before is reduced again *)
      exists 1, (<[e:=r]> visited), w2, ∅.
      split_and!; [exact Hs|exact Hp2|exact Hcl2|..].
      * rewrite dom_insert_L, (right_id_L ∅ (∪)).
        apply subseteq_union_1_L. by apply singleton_subseteq_l.
      * apply disjoint_empty_l.
      * intros a Ha. by apply elem_of_empty in Ha.
      * intros o Ho%list_elem_of_singleton. subst o.
        rewrite dom_insert_L. apply elem_of_union. left.
        by apply elem_of_singleton.
      * rewrite elements_empty, Hcalls. simpl. lia.
      * rewrite Hcalls. simpl. lia.
    + exists 1, (<[e:=r]> visited), w2, {[e]}.
      split_and!; [exact Hs|exact Hp2|exact Hcl2|..].
      * by rewrite dom_insert_L, (comm_L (∪)).
      * by apply disjoint_singleton_l.
      * intros a Ha%elem_of_singleton. subst a. exists e.
        split; [by apply list_elem_of_singleton|constructor].
      * intros o Ho%list_elem_of_singleton. subst o.
        rewrite dom_insert_L. apply elem_of_union. left.
        by apply elem_of_singleton.
      * rewrite elements_singleton, Hcalls. simpl. lia.
      * rewrite Hcalls. simpl. lia.
  - set (u := filter (fun o => visited !! o = None) (operands node)) in *.
    pose proof (visit_expand_some e stack visited w node Hw Hu) as Hexpand.
    fold u in Hexpand.
    assert (Hu_ops : forall o, o ∈ u -> o ∈ operands node).
    { intros o Ho. by apply list_elem_of_filter in Ho as [_ Ho]. }
    assert (Hnin : e ∉ dom visited).
    { intros Hin. apply Hu. apply filter_unvisited_nil, Forall_forall.
      intros o Ho. apply elem_of_dom. by apply (Hcl e node o). }
    destruct (within_list (reverse u)) with
      (stack := e :: stack) (visited := visited) (w := w)
      as (n1 & V1 & w1 & N1 & Hs1 & Hp1 & Hcl1 & Hdom1 & Hd1 & Hr1 & Hin1 &
          Hlo1 & Hhi1); try done.
    { apply Forall_forall. intros o Ho. rewrite elem_of_reverse in Ho.
      intros st V w0. apply IH; [by apply Hvalid, Hu_ops|].
      specialize (Hvalid o (Hu_ops o Ho)). lia. }
    assert (Hall : forall o, o ∈ operands node -> o ∈ dom V1).
    { intros o Ho. destruct (visited !! o) as [r|] eqn:Hvo.
      - rewrite Hdom1. apply elem_of_union. left. by apply elem_of_dom.
      - apply Hin1. rewrite elem_of_reverse. by apply list_elem_of_filter. }
    destruct (Hlast V1 w1 Hp1 Hcl1 Hall)
      as (r & w2 & args & Hvisit & Hp2 & Hcl2).
    assert (HeN1 : e ∉ N1).
    { intros Hin. destruct (Hr1 e Hin) as (o & Ho & Hreach).
      rewrite elem_of_reverse in Ho.
      pose proof (reach_le h o e wf Hreach).
      specialize (Hvalid o (Hu_ops o Ho)). lia. }
    assert (Hs : steps (1 + (n1 + 1)) ([e] ++ stack, visited, w)
                   (stack, <[e:=r]> V1, w2)).
    { eapply steps_trans; [apply steps_one; by rewrite Hexpand|].
      eapply steps_trans; [exact Hs1|]. apply steps_one. by rewrite Hvisit. }
    assert (Hcalls : length (calls (1 + (n1 + 1)) ([e] ++ stack) visited w)
                     = length (calls n1 (reverse u ++ e :: stack) visited w)
                       + 1).
    { change ([e] ++ stack) with (e :: stack).
      rewrite (calls_steps heap_of fn 1 (e :: stack) visited w
                 (reverse u ++ e :: stack) visited w);
        [|apply steps_one; by rewrite Hexpand].
      rewrite (calls_steps heap_of fn _ _ _ _ _ _ _ Hs1).
      rewrite (calls_one heap_of fn _ _ _ _ _ _ _ _ Hexpand).
      rewrite (calls_one heap_of fn _ _ _ _ _ _ _ _ Hvisit).
      change (option_list None ++ ?l) with l. by rewrite length_app. }
    exists (1 + (n1 + 1)), (<[e:=r]> V1), w2, ({[e]} ∪ N1).
    split_and!; [exact Hs|exact Hp2|exact Hcl2|..].
    + rewrite dom_insert_L, Hdom1, !(assoc_L (∪)).
      by rewrite (comm_L (∪) {[e]} (dom visited)).
    + apply disjoint_union_l. split; [by apply disjoint_singleton_l|done].
    + intros a [Ha|Ha]%elem_of_union.
      * apply elem_of_singleton in Ha as ->. exists e.
        split; [by apply list_elem_of_singleton|constructor].
      * destruct (Hr1 a Ha) as (o & Ho & Hreach).
        rewrite elem_of_reverse in Ho. exists e.
        split; [by apply list_elem_of_singleton|].
        eapply reach_step; [exact Hnode|by apply Hu_ops|done].
    + intros o Ho%list_elem_of_singleton. subst o.
      rewrite dom_insert_L. apply elem_of_union. left.
      by apply elem_of_singleton.
    + rewrite Hcalls, (elements_union_singleton N1 e HeN1). simpl. lia.
    + rewrite Hcalls. unfold references in *.
      rewrite (elements_union_singleton N1 e HeN1). simpl.
      rewrite length_reverse in Hhi1.
      pose proof (length_filter (fun o => visited !! o = None)
                    (operands node)) as Hlen.
      fold u in Hlen. rewrite Harity. lia.
Qed.

(** X13.  The number of calls of the step function is linear in the size of
    the expression: the visitor calls a step function that always returns
    at least once for every node under the root and at most once for the
    root and once for every operand reference held by a node under the
    root, however many paths lead to a node. *)
Theorem visitor_calls_linear root w :
  root < length h -> heap_of w = h ->
  exists n (nodes : list addr),
    NoDup nodes /\ (forall a, a ∈ nodes <-> reach h root a) /\
    forall k,
      (exists r w', postvisitor (n + k) root w = Ok (r, w')) /\
      length nodes <= length (postvisitor_calls (n + k) root w) /\
      length (postvisitor_calls (n + k) root w) <= 1 + references h nodes.
Proof.
  intros Hroot Hw.
  destruct (within_node root Hroot [] ∅ w)
    as (n & V & w' & N & Hs & Hp & Hcl & Hdom & Hd & Hr & Hin & Hlo & Hhi).
  { by rewrite Hw. }
  { intros a node o Ha. rewrite dom_empty_L in Ha.
    by apply elem_of_empty in Ha. }
  rewrite dom_empty_L, (left_id_L ∅ (∪)) in Hdom.
  assert (HrootV : root ∈ dom V) by (apply Hin; by left).
  exists n, (elements N). split_and!.
  - apply NoDup_elements.
  - intros a. rewrite elem_of_elements. split.
    + intros Ha. destruct (Hr a Ha) as (o & Ho & Hreach).
      by apply list_elem_of_singleton in Ho as ->.
    + intros Hreach. rewrite <- Hdom. by apply (closed_reach h V root a).
  - intros k.
    assert (Hcalls : postvisitor_calls (n + k) root w
                     = calls n ([root] ++ []) ∅ w).
    { unfold postvisitor_calls.
      rewrite (calls_steps heap_of fn _ _ _ _ _ _ _ Hs).
      by rewrite (calls_nil heap_of fn), app_nil_r. }
    rewrite Hcalls. split_and!; [|exact Hlo|exact Hhi].
    unfold postvisitor.
    rewrite (steps_while heap_of fn _ _ _ _ _ _ _ Hs), while_stack_nil.
    apply elem_of_dom in HrootV as [r Hr']. rewrite Hr'. by eexists _, _.
Qed.

End CallBound.

Lemma visitor_calls_linear_witness :
  let h := [Terminal Symbol (VStr "x"); Operator Mul [0; 0]] in
  wf_heap h /\ 1 < length h /\
  exists n (nodes : list addr),
    NoDup nodes /\ (forall a, a ∈ nodes <-> reach h 1 a) /\
    forall k,
      (exists r w',
         postvisitor fst counting_step (n + k) 1 (h, 0) = Ok (r, w')) /\
      length nodes
        <= length (postvisitor_calls fst counting_step (n + k) 1 (h, 0)) /\
      length (postvisitor_calls fst counting_step (n + k) 1 (h, 0))
        <= 1 + references h nodes.
Proof.
  intros h.
  assert (Hwf : wf_heap h) by (apply wf_heap_check; reflexivity).
  assert (Hlen : 1 < length h) by (simpl; lia).
  split_and!; [done|done|].
  apply (visitor_calls_linear fst counting_step); try done.
  intros e args w. by eexists _, _.
Defined.

(** ** Operators built with other than two operands *)

Lemma returns_ret {A} (a : A) : returns (ret a).
Proof. intros h. by exists a, h. Qed.

Lemma returns_bind {A B} (m : M A) (f : A -> M B) :
  returns m -> (forall a, returns (f a)) -> returns (bind m f).
Proof.
  intros Hm Hf h. destruct (Hm h) as (a & h1 & Hmh).
  destruct (Hf a h1) as (b & h2 & Hfa).
  exists b, h2. unfold bind. by rewrite Hmh.
Qed.

Lemma returns_binop_l_ref c a b : returns (binop_l c a (Ref b)).
Proof. intros h. rewrite binop_l_ref. by eexists _, _. Qed.

Lemma returns_binop_l_num c a v :
  is_number v = true -> returns (binop_l c a (Val v)).
Proof. intros Hv h. rewrite binop_l_num by done. by eexists _, _. Qed.

Lemma returns_dbinop_r c d r : returns (dbinop_r c d r).
Proof.
  intros h. destruct d as [x|a]; simpl.
  - rewrite binop_r_num by done. by eexists _, _.
  - apply returns_binop_l_ref.
Qed.

Lemma returns_dbinop_l c l d : returns (dbinop_l c l d).
Proof.
  destruct d as [x|a]; [by apply returns_binop_l_num|].
  apply returns_binop_l_ref.
Qed.

Lemma returns_dadd l r : returns (dadd l r).
Proof.
  destruct l as [x|a]; [destruct r as [y|b]|]; simpl.
  - apply returns_ret.
  - apply returns_bind; [|intros; apply returns_ret].
    apply (returns_dbinop_r Add (DFloat x) b).
  - apply returns_bind; [|intros; apply returns_ret].
    apply (returns_dbinop_l Add a r).
Qed.

Create HintDb returns.
#[local] Hint Resolve returns_ret returns_binop_l_ref returns_dbinop_r
  returns_dbinop_l returns_dadd : returns.



(** ** Computations that only construct *)

Lemma extends_ret {A} (a : A) : extends (ret a).
Proof. intros h a' h' [= <- <-]. done. Qed.

Lemma extends_raise {A} x : extends (@raise A x).
Proof. by intros h a h'. Qed.

Lemma extends_bind {A B} (m : M A) (f : A -> M B) :
  extends m -> (forall a, extends (f a)) -> extends (bind m f).
Proof.
  intros Hm Hf h b h'. unfold bind.
  destruct (m h) as [[a h1]|x|] eqn:Hmh; try done.
  intros Hfa. etrans; [by eapply Hm|by eapply Hf].
Qed.

Lemma extends_index {A} (l : list A) i : extends (index l i).
Proof.
  unfold index. destruct (l !! i); [apply extends_ret|apply extends_raise].
Qed.

Lemma extends_deref a : extends (deref a).
Proof.
  intros h e h'. unfold deref. destruct (h !! a); [|done].
  by intros [= <- <-].
Qed.

Lemma extends_binop_l c a r : extends (binop_l c a r).
Proof.
  intros h x h'. destruct r as [b|v].
  - rewrite binop_l_ref. intros [= <- <-]. by apply prefix_app_r.
  - destruct (is_number v) eqn:Hv.
    + rewrite binop_l_num by done. intros [= <- <-]. by apply prefix_app_r.
    + unfold binop_l. rewrite method_binary. unfold bind, binary.
      by rewrite Hv.
Qed.

Lemma extends_binop_r c v b : extends (binop_r c v b).
Proof.
  intros h x h'. destruct (is_number v) eqn:Hv.
  - rewrite binop_r_num by done. intros [= <- <-]. by apply prefix_app_r.
  - unfold binop_r. rewrite rmethod_reflected. unfold bind, reflected.
    by rewrite Hv.
Qed.

Lemma extends_dbinop_r c d r : extends (dbinop_r c d r).
Proof. destruct d; [apply extends_binop_r|apply extends_binop_l]. Qed.

Lemma extends_dbinop_l c l d : extends (dbinop_l c l d).
Proof. apply extends_binop_l. Qed.

Lemma extends_dadd l r : extends (dadd l r).
Proof.
  destruct l as [x|a]; [destruct r as [y|b]|]; simpl.
  - apply extends_ret.
  - apply extends_bind; [apply extends_binop_r|intros; apply extends_ret].
  - apply extends_bind; [apply extends_binop_l|intros; apply extends_ret].
Qed.

Create HintDb extends.
#[local] Hint Resolve extends_ret extends_raise extends_index extends_deref
  extends_binop_l extends_binop_r extends_dbinop_r extends_dbinop_l
  extends_dadd : extends.

(** Whatever a rule of differentiation is called with, it changes no
    node. *)
Lemma differentiate_extends var e o : extends (differentiate var e o).
Proof.
  unfold differentiate. apply extends_bind; [auto with extends|].
  intros [[] v|[] ops];
    repeat (apply extends_bind; [auto with extends|intros ?]);
    auto with extends.
Qed.

(** ** Where an exception comes from *)

Section Origin.

Context {W R : Type}.
Variable heap_of : W -> heap.
Variable fn : addr -> list R -> W -> outcome (R * W).

Local Abbreviation visit := (visit heap_of fn).
Local Abbreviation calls := (calls heap_of fn).
Local Abbreviation while_stack := (while_stack heap_of fn).
Local Abbreviation postvisitor := (postvisitor heap_of fn).
Local Abbreviation postvisitor_calls := (postvisitor_calls heap_of fn).

(** The loop ends with every node of the stack in the cache, whatever the
    arena and the step function are. *)
Lemma while_stack_cached fuel : forall stack V w V' w',
  while_stack fuel stack V w = Ok (V', w') ->
  (forall a, a ∈ stack -> is_Some (V' !! a)) /\
  (forall a, is_Some (V !! a) -> is_Some (V' !! a)).
Proof.
  induction fuel as [|fuel IH]; intros stack V w V' w' Hres.
  { destruct stack; [|done]. injection Hres as <- <-.
    split; [|done]. intros a Ha. by apply elem_of_nil in Ha. }
  destruct stack as [|e stack].
  { injection Hres as <- <-.
    split; [|done]. intros a Ha. by apply elem_of_nil in Ha. }
  simpl in Hres. unfold visit in Hres.
  destruct (heap_of w !! e) as [node|]; [|done].
  destruct (filter (fun o => V !! o = None) (operands node)) as [|u us].
  - destruct (mapM (fun o => V !! o) (operands node)) as [args|]; [|done].
    destruct (fn e args w) as [[r w1]|x|]; try done. simpl in Hres.
    destruct (IH _ _ _ _ _ Hres) as [Hst Hmono].
    assert (He : is_Some (V' !! e)).
    { apply Hmono. rewrite lookup_insert_eq. by eexists. }
    split.
    + intros a [->|Ha]%elem_of_cons; [done|by apply Hst].
    + intros a Ha. apply Hmono.
      destruct (decide (a = e)) as [->|Hne].
      * rewrite lookup_insert_eq. by eexists.
      * by rewrite lookup_insert_ne.
  - simpl in Hres. destruct (IH _ _ _ _ _ Hres) as [Hst Hmono].
    split; [|done]. intros a Ha. apply Hst.
    apply elem_of_app. right. done.
Qed.

(** The step function changes no node. *)
Hypothesis fn_constructs :
  forall e args w r w',
    fn e args w = Ok (r, w') -> heap_of w `prefix_of` heap_of w'.

Lemma while_stack_extends fuel : forall stack V w V' w',
  while_stack fuel stack V w = Ok (V', w') ->
  heap_of w `prefix_of` heap_of w'.
Proof.
  induction fuel as [|fuel IH]; intros stack V w V' w' Hres.
  { destruct stack; [|done]. by injection Hres as <- <-. }
  destruct stack as [|e stack]; [by injection Hres as <- <-|].
  simpl in Hres. unfold visit in Hres.
  destruct (heap_of w !! e) as [node|]; [|done].
  destruct (filter (fun o => V !! o = None) (operands node)) as [|u us].
  - destruct (mapM (fun o => V !! o) (operands node)) as [args|]; [|done].
    destruct (fn e args w) as [[r w1]|x|] eqn:Hfn; try done.
    simpl in Hres. etrans; [by eapply fn_constructs|by eapply IH].
  - simpl in Hres. by eapply IH.
Qed.

Lemma postvisitor_extends fuel root w r w' :
  postvisitor fuel root w = Ok (r, w') ->
  heap_of w `prefix_of` heap_of w'.
Proof.
  unfold postvisitor.
  destruct (while_stack fuel [root] ∅ w) as [[V w1]|x|] eqn:Hrun; try done.
  destruct (V !! root); [|done]. intros [= <- <-].
  by eapply while_stack_extends.
Qed.

Variable h : heap.
Hypothesis wf : wf_heap h.

Lemma while_stack_raise fuel : forall stack V w x,
  h `prefix_of` heap_of w ->
  Forall (fun a => a < length h) stack ->
  while_stack fuel stack V w = Raise x ->
  exists l c,
    calls fuel stack V w = l ++ [c] /\
    fn (call_node c) (call_args c) (call_world c) = Raise x /\
    call_result c = None /\
    Forall (fun c' => is_Some (call_result c')) l.
Proof.
  induction fuel as [|fuel IH]; intros stack V w x Hp Hst Hres.
  { by destruct stack. }
  destruct stack as [|e stack]; [done|].
  apply Forall_cons in Hst as [He Hst].
  destruct (lookup_lt_is_Some_2 h e He) as [node Hnode].
  assert (Hw : heap_of w !! e = Some node)
    by (by apply (prefix_lookup_Some h)).
  simpl in *.
  destruct (decide (filter (fun o => V !! o = None) (operands node) = []))
    as [Hu|Hu].
  - destruct (visit_apply heap_of fn e stack V w node Hw)
      as (args & _ & Hvisit); [by apply filter_unvisited_nil|].
    rewrite Hvisit in *.
    destruct (fn e args w) as [[r w1]|x'|] eqn:Hfn; simpl in *.
    + destruct (IH stack (<[e:=r]> V) w1 x) as (l & c & Hc & Hx & Hn & Hl).
      * etrans; [done|]. by eapply fn_constructs.
      * done.
      * done.
      * exists (Call e w args (Some r) :: l), c. rewrite Hc.
        split_and!; [done|done|done|].
        constructor; [by eexists|done].
    + injection Hres as ->.
      exists [], (Call e w args None). by split_and!.
    + done.
  - rewrite (visit_expand_some heap_of fn e stack V w node Hw Hu) in *.
    simpl in *. apply IH; [done| |done].
    apply Forall_app. split; [|by constructor].
    apply Forall_forall. intros o Ho. rewrite elem_of_reverse in Ho.
    apply list_elem_of_filter in Ho as [_ Ho].
    pose proof (wf_operand_lt h e node o wf Hnode Ho). lia.
Qed.

(** X15.  The visitor raises nothing of its own.  When a run ends with an
    exception, the step function raised it, in the last call the visitor
    made, and every call before returned: the lookups in the cache -- of
    the results of the operands, and of the result of the root at the end
    -- never fail. *)
Theorem visitor_raises_what_fn_raises fuel root w x :
  root < length h -> heap_of w = h ->
  postvisitor fuel root w = Raise x ->
  exists l c,
    postvisitor_calls fuel root w = l ++ [c] /\
    fn (call_node c) (call_args c) (call_world c) = Raise x /\
    call_result c = None /\
    Forall (fun c' => is_Some (call_result c')) l.
Proof.
  intros Hroot Hw Hres. unfold postvisitor in Hres.
  destruct (while_stack fuel [root] ∅ w) as [[V w']|x'|] eqn:Hrun.
  - destruct (while_stack_cached fuel _ _ _ _ _ Hrun) as [Hst _].
    destruct (Hst root) as [r Hr]; [by left|]. by rewrite Hr in Hres.
  - injection Hres as ->.
    apply (while_stack_raise fuel [root] ∅ w x); [by rewrite Hw| |done].
    by constructor.
  - done.
Qed.

End Origin.

Lemma visitor_raises_what_fn_raises_witness :
  let h := [Terminal Symbol (VStr "x"); Terminal Number (VInt 1);
            Operator Sub [0; 1]] in
  let x := NotImplementedError "Cannot differentiate Sub" in
  wf_heap h /\ 2 < length h /\
  derivative 4 2 "x" h = Raise x /\
  exists l c,
    postvisitor_calls (fun h : heap => h) (differentiate "x") 4 2 h
      = l ++ [c] /\
    differentiate "x" (call_node c) (call_args c) (call_world c) = Raise x /\
    call_result c = None /\
    Forall (fun c' => is_Some (call_result c')) l.
Proof.
  intros h x.
  assert (Hwf : wf_heap h) by (apply wf_heap_check; reflexivity).
  assert (Hlen : 2 < length h) by (simpl; lia).
  assert (Hd : derivative 4 2 "x" h = Raise x) by (by vm_compute).
  split_and!; [done|done|done|].
  exact (visitor_raises_what_fn_raises (fun h : heap => h)
           (differentiate "x") (differentiate_extends "x") h Hwf
           4 2 h x Hlen eq_refl Hd).
Defined.

(** ** Nodes are never changed *)

Lemma extends_new e : extends (new e).
Proof. intros h a h' [= <- <-]. by apply prefix_app_r. Qed.

Lemma extends_Number_init value : extends (Number_init value).
Proof.
  destruct value as [a|v]; simpl; [apply extends_raise|].
  destruct (is_number v); [apply extends_new|apply extends_raise].
Qed.

Lemma extends_Symbol_init value : extends (Symbol_init value).
Proof.
  destruct value as [a|v]; simpl; [apply extends_raise|].
  destruct (is_str v); [apply extends_new|apply extends_raise].
Qed.

Lemma derivative_extends fuel e var : extends (derivative fuel e var).
Proof.
  intros h r h' Hres.
  exact (postvisitor_extends (fun h : heap => h) (differentiate var)
           (differentiate_extends var) fuel e h r h' Hres).
Qed.

(** X16.  Expressions are never changed once they are constructed:
    whenever a constructor, an arithmetic operator, a rule of
    differentiation or a whole differentiation returns -- whatever it was
    called with -- every node that existed before is as it was, and what is
    new comes after. *)
Theorem operations_construct_only :
  (forall value, extends (Number_init value)) /\
  (forall value, extends (Symbol_init value)) /\
  (forall c l r, extends (binop_l c l r)) /\
  (forall c l r, extends (binop_r c l r)) /\
  (forall var e o, extends (differentiate var e o)) /\
  (forall fuel e var, extends (derivative fuel e var)).
Proof.
  split_and!.
  - apply extends_Number_init.
  - apply extends_Symbol_init.
  - apply extends_binop_l.
  - apply extends_binop_r.
  - apply differentiate_extends.
  - apply derivative_extends.
Qed.
